(** * Trowbridge family budget: ledger carry-forward and encrypted persistence

    A shallow embedding of
      - [src/App.tsx]         the ledger types and the monthly carry-forward effect,
      - [src/lib/crypto.ts]   the passphrase envelope ([encryptJSON], [decryptJSON]),
      - [src/lib/storage.ts]  the local / cloud stores and [loadState], [saveState].

    JavaScript numbers are IEEE doubles ([float]); strings are [string] and are
    compared the way JavaScript compares them, code unit by code unit;
    objects used as dictionaries ([Record<string, number>]) are finite maps.
    An allocation object holds numbers only, as its type says, and no month
    key is the name of a member of [Object.prototype]: [o[k] !== undefined]
    is then "[k] is a key of [o]".  Promises run one at a time; [await] is
    sequencing. *)

From Stdlib Require Import Floats.PrimFloat OrderedTypeEx.
From Stdlib Require Import Strings.Ascii Strings.Byte DecimalString.
From stdpp Require Import gmap strings list sorting.

Set Default Proof Using "Type".

(** JavaScript [number]. *)
Abbreviation number := float (only parsing).

(** ** JavaScript strings: [<] and the default [Array.prototype.sort] order *)

(** [a < b] on two strings. *)
Definition str_ltb (a b : string) : bool := String.ltb a b.

Definition str_lt (a b : string) : Prop := str_ltb a b = true.
Definition str_le (a b : string) : Prop := String.leb a b = true.

#[global] Instance str_lt_dec a b : Decision (str_lt a b).
Proof. unfold str_lt. apply _. Defined.
#[global] Instance str_le_dec a b : Decision (str_le a b).
Proof. unfold str_le. apply _. Defined.

(** [arr.sort()] with no comparator, on an array of strings. *)
Definition sort (l : list string) : list string := merge_sort str_le l.

(** [Object.keys(o)]; the order JavaScript enumerates the keys in is not
    modelled, every use in the program sorts the result. *)
Definition Object_keys {V} (o : gmap string V) : list string := (map_to_list o).*1.

(** [!!s] for a value that is a string, or [undefined] or [null] ([None]). *)
Definition truthy_string (s : option string) : bool :=
  match s with
  | Some s => bool_decide (s ≠ "")
  | None => false
  end.

(** ** Month keys ([src/App.tsx], "Utils") *)

(** [String(n)] for a non-negative integer. *)
Definition Number_toString (n : N) : string :=
  NilEmpty.string_of_uint (N.to_uint n).

(** [s.padStart(targetLength, padString)] *)
Definition padStart (targetLength : nat) (padString s : string) : string :=
  let len := String.length s in
  if decide (targetLength ≤ len) then s
  else if decide (padString = "") then s
  else
    let fillLen := targetLength - len in
    String.substring 0 fillLen (String.concat "" (replicate fillLen padString)) +:+ s.

(** [monthKey(dt)], from [dt.getFullYear()] and [dt.getMonth()] (0 to 11). *)
Definition monthKey (fullYear month : N) : string :=
  Number_toString fullYear +:+ "-" +:+ padStart 2 "0" (Number_toString (month + 1)).

(** The key of month number [i], counting months from January of year 0. *)
Definition month_at (i : N) : string := monthKey (i / 12) (i `mod` 12).

(** The keys of the [n] months that follow month [i]. *)
Definition months_after (i : N) (n : nat) : list string :=
  (λ k, month_at (i + N.of_nat k)) <$> seq 1 n.

(** Do the keys of [fuel] consecutive months from [i] on ascend. *)
Fixpoint ascending_from (fuel : nat) (i : N) : bool :=
  match fuel with
  | 0 => true
  | S fuel' =>
      str_ltb (month_at i) (month_at (N.succ i)) && ascending_from fuel' (N.succ i)
  end.

(** ** Ledger types ([src/App.tsx], "Types") *)

Record Bucket := mkBucket {
  bucket_id : string;
  bucket_name : string;
  category : option string;
  allocations : gmap string number;      (* monthKey -> allocation *)
  isIncome : option bool;
  deletedMonths : option (gmap string bool)
}.

Record Txn := mkTxn {
  txn_id : string;
  date : string;                         (* YYYY-MM-DD *)
  description : string;
  amount : number;
  bucketId : option string;              (* null = unassigned *)
  deleted : option bool
}.

Record AppState := mkAppState {
  buckets : list Bucket;
  txns : list Txn;
  version : option number
}.

(** [{ ...b, allocations: a }] *)
Definition with_allocations (b : Bucket) (a : gmap string number) : Bucket :=
  {| bucket_id := bucket_id b; bucket_name := bucket_name b;
     category := category b; allocations := a;
     isIncome := isIncome b; deletedMonths := deletedMonths b |}.

(** [{ ...s, buckets: bs }] *)
Definition with_buckets (s : AppState) (bs : list Bucket) : AppState :=
  {| buckets := bs; txns := txns s; version := version s |}.

(** [prev ? b.allocations[prev] : 0].  [b.allocations[prev]] of a key that is
    absent would be [undefined]; [prev] is always taken from the keys of
    [b.allocations] (lemma [carry_of_key] below), the [None] branch is there
    to keep the function total. *)
Definition carry_of (a : gmap string number) (prev : option string) : number :=
  match prev with
  | Some p => if truthy_string prev then default 0%float (a !! p) else 0%float
  | None => 0%float
  end.

(** ** The carry-forward effect, current revision ([src/App.tsx], 831-859)

    The function passed to [s.buckets.map] inside the [setState] updater. *)
Definition carryBucket (activeMonthKey : string) (b : Bucket) : Bucket :=
  (* If this month already has an allocation, leave it alone *)
  if decide (is_Some (allocations b !! activeMonthKey)) then b else
  (* Get all months where this bucket has allocations *)
  let allocationKeys := sort (Object_keys (allocations b)) in
  (* If this bucket has no allocations at all, don't add one *)
  if decide (length allocationKeys = 0) then b else
  match head allocationKeys with
  | None => b
  | Some firstMonth =>
    (* navigating to a month BEFORE the bucket was created *)
    if str_ltb activeMonthKey firstMonth then b else
    let prevKeys := filter (λ k, str_lt k activeMonthKey) allocationKeys in
    let prev := last prevKeys in
    let carry := carry_of (allocations b) prev in
    with_allocations b (<[activeMonthKey := carry]> (allocations b))
  end.

Definition carryForward (activeMonthKey : string) (s : AppState) : AppState :=
  with_buckets s (map (carryBucket activeMonthKey) (buckets s)).

(** ** The carry-forward effect, first revision ([src/App.tsx], 149-161) *)
Definition carryBucket_v1 (activeMonthKey : string) (b : Bucket) : Bucket :=
  if decide (is_Some (allocations b !! activeMonthKey)) then b else
  let prevKeys :=
    sort (filter (λ k, str_lt k activeMonthKey) (Object_keys (allocations b))) in
  let prev := last prevKeys in
  let carry := carry_of (allocations b) prev in
  with_allocations b (<[activeMonthKey := carry]> (allocations b)).

Definition carryForward_v1 (activeMonthKey : string) (s : AppState) : AppState :=
  with_buckets s (map (carryBucket_v1 activeMonthKey) (buckets s)).

(** Running the effect for a sequence of active months, one after the other. *)
Definition carryBucket_seq (months : list string) (b : Bucket) : Bucket :=
  foldl (λ acc m, carryBucket m acc) b months.
Definition carryBucket_v1_seq (months : list string) (b : Bucket) : Bucket :=
  foldl (λ acc m, carryBucket_v1 m acc) b months.

(** ** The app's actions and derived views ([src/App.tsx], "App")

    Each action is the updater it hands to [setState]; the active month key is
    a parameter, as are the values the browser supplies ([uid()], the dates). *)

(** [monthKeyFrom(dateISO)]: [dateISO.slice(0, 7)] *)
Definition monthKeyFrom (dateISO : string) : string := String.substring 0 7 dateISO.

(** Are the keys of [fuel] consecutive months from [i] on seven characters
    long. *)
Fixpoint seven_chars_from (fuel : nat) (i : N) : bool :=
  match fuel with
  | 0 => true
  | S fuel' =>
      Nat.eqb (String.length (month_at i)) 7 && seven_chars_from fuel' (N.succ i)
  end.

(** [!!x] for [x : boolean | undefined] *)
Definition truthy_flag (x : option bool) : bool := default false x.

(** [!!x] for [x : number | undefined] *)
Definition truthy_number (x : option number) : bool :=
  match x with
  | Some n => negb (PrimFloat.eqb n 0) && negb (PrimFloat.is_nan n)
  | None => false
  end.

(** [x || 0] for [x : number | undefined] *)
Definition or_zero (x : option number) : number :=
  match x with
  | Some n => if truthy_number x then n else 0%float
  | None => 0%float
  end.

(** [{ ...b, deletedMonths: d }] *)
Definition with_deletedMonths (b : Bucket) (d : option (gmap string bool)) : Bucket :=
  {| bucket_id := bucket_id b; bucket_name := bucket_name b;
     category := category b; allocations := allocations b;
     isIncome := isIncome b; deletedMonths := d |}.

(** [{ ...t, bucketId }] *)
Definition with_bucketId (t : Txn) (bucketId : option string) : Txn :=
  {| txn_id := txn_id t; date := date t; description := description t;
     amount := amount t; bucketId := bucketId; deleted := deleted t |}.

(** [{ ...t, deleted: flag }] *)
Definition with_deleted (t : Txn) (flag : bool) : Txn :=
  {| txn_id := txn_id t; date := date t; description := description t;
     amount := amount t; bucketId := bucketId t; deleted := Some flag |}.

(** [{ ...s, txns: ts }] *)
Definition with_txns (s : AppState) (ts : list Txn) : AppState :=
  {| buckets := buckets s; txns := ts; version := version s |}.

(** *** Actions *)

Definition updateAlloc (activeMonthKey bucketId : string) (value : number)
    (s : AppState) : AppState :=
  with_buckets s
    (map (λ b, if decide (bucket_id b = bucketId)
               then with_allocations b (<[activeMonthKey := value]> (allocations b))
               else b)
         (buckets s)).

(** [addBucket(name, alloc, addToAllFuture)] (current revision, 912-932).
    [id] is what [uid()] returned; [futureMonths] are the twelve keys the loop
    over [currentDate] writes, in the order it writes them. *)
Definition addBucket (activeMonthKey : string) (futureMonths : list string)
    (id name : string) (alloc : number) (addToAllFuture : bool)
    (s : AppState) : AppState :=
  if decide (name = "") then s else
  if addToAllFuture then
    let allocations := foldl (λ acc monthKey, <[monthKey := alloc]> acc) ∅ futureMonths in
    with_buckets s (buckets s ++ [mkBucket id name None allocations None None])
  else
    with_buckets s
      (buckets s ++ [mkBucket id name None {[ activeMonthKey := alloc ]} None None]).

(** [addBucket(name, alloc)] (first revision, 208-212) *)
Definition addBucket_v1 (activeMonthKey : string) (id name : string) (alloc : number)
    (s : AppState) : AppState :=
  if decide (name = "") then s else
  with_buckets s
    (buckets s ++ [mkBucket id name None {[ activeMonthKey := alloc ]} None None]).

Definition deleteBucketForMonth (activeMonthKey bucketId : string)
    (s : AppState) : AppState :=
  with_buckets s
    (map (λ b, if decide (bucket_id b = bucketId)
               then with_deletedMonths b
                      (Some (<[activeMonthKey := true]> (default ∅ (deletedMonths b))))
               else b)
         (buckets s)).

Definition reassignTxn (id : string) (bucketId : option string) (s : AppState) : AppState :=
  with_txns s
    (map (λ t, if decide (txn_id t = id) then with_bucketId t bucketId else t) (txns s)).

Definition softDeleteTxn (id : string) (s : AppState) : AppState :=
  with_txns s
    (map (λ t, if decide (txn_id t = id) then with_deleted t true else t) (txns s)).

Definition restoreTxn (id : string) (s : AppState) : AppState :=
  with_txns s
    (map (λ t, if decide (txn_id t = id) then with_deleted t false else t) (txns s)).

Definition deleteForever (id : string) (s : AppState) : AppState :=
  with_txns s (filter (λ t, txn_id t ≠ id) (txns s)).

(** The updater of [importCSV]: the parsed rows go in front. *)
Definition importTxns (parsed : list Txn) (s : AppState) : AppState :=
  with_txns s (parsed ++ txns s).

Definition CURRENT_VERSION : number := 1%float.

Definition migrateState (state : AppState) : AppState :=
  if negb (truthy_number (version state))
  then {| buckets := buckets state; txns := txns state; version := Some 1%float |}
  else state.

(** [seedState()] (702-713); the month key of [new Date()] is a parameter. *)
Definition seedState (activeMonthKey : string) : AppState :=
  {| buckets := [ {| bucket_id := "income"; bucket_name := "Income"; category := None;
                     allocations := {[ activeMonthKey := 0%float ]};
                     isIncome := Some true; deletedMonths := None |} ];
     txns := [];
     version := Some CURRENT_VERSION |}.

(** The updater of the description field of a transaction row (1160). *)
Definition editDescription (id value : string) (s : AppState) : AppState :=
  with_txns s
    (map (λ x, if decide (txn_id x = id)
               then {| txn_id := txn_id x; date := date x; description := value;
                       amount := amount x; bucketId := bucketId x;
                       deleted := deleted x |}
               else x)
         (txns s)).

(** Every updater the component hands to [setState] once the ledger is
    loaded, with the values the user and the browser supply. *)
Inductive Action : Type :=
  | CarryForward (activeMonthKey : string)
  | UpdateAlloc (activeMonthKey bucketId : string) (value : number)
  | AddBucket (activeMonthKey : string) (futureMonths : list string)
      (id name : string) (alloc : number) (addToAllFuture : bool)
  | DeleteBucketForMonth (activeMonthKey bucketId : string)
  | ReassignTxn (id : string) (bucketId : option string)
  | SoftDeleteTxn (id : string)
  | RestoreTxn (id : string)
  | DeleteForever (id : string)
  | ImportCSV (parsed : list Txn)
  | EditDescription (id value : string).

Definition perform (a : Action) (s : AppState) : AppState :=
  match a with
  | CarryForward M => carryForward M s
  | UpdateAlloc M bucketId value => updateAlloc M bucketId value s
  | AddBucket M futureMonths id name alloc addToAllFuture =>
      addBucket M futureMonths id name alloc addToAllFuture s
  | DeleteBucketForMonth M bucketId => deleteBucketForMonth M bucketId s
  | ReassignTxn id bucketId => reassignTxn id bucketId s
  | SoftDeleteTxn id => softDeleteTxn id s
  | RestoreTxn id => restoreTxn id s
  | DeleteForever id => deleteForever id s
  | ImportCSV parsed => importTxns parsed s
  | EditDescription id value => editDescription id value s
  end.

(** The ledger after a sequence of updates, first one first. *)
Definition perform_all (acts : list Action) (s : AppState) : AppState :=
  foldl (λ s a, perform a s) s acts.

(** *** Derived views *)

(** [b.deletedMonths && b.deletedMonths[activeMonthKey]] *)
Definition deleted_in (activeMonthKey : string) (b : Bucket) : bool :=
  match deletedMonths b with
  | Some d => truthy_flag (d !! activeMonthKey)
  | None => false
  end.

(** The predicate of [nonIncomeBuckets], current revision (863-867). *)
Definition shown_in (activeMonthKey : string) (b : Bucket) : bool :=
  if truthy_flag (isIncome b) then false
  else if deleted_in activeMonthKey b then false
  else bool_decide (is_Some (allocations b !! activeMonthKey)).

Definition nonIncomeBuckets (activeMonthKey : string) (s : AppState) : list Bucket :=
  filter (λ b, shown_in activeMonthKey b = true) (buckets s).

(** First revision (165). *)
Definition nonIncomeBuckets_v1 (activeMonthKey : string) (s : AppState) : list Bucket :=
  filter (λ b, negb (truthy_flag (isIncome b)) && negb (deleted_in activeMonthKey b) = true)
         (buckets s).

(** [state.buckets.find((b) => b.isIncome)] *)
Definition incomeBucket (s : AppState) : option Bucket :=
  find (λ b, truthy_flag (isIncome b)) (buckets s).

Definition monthTxns (activeMonthKey : string) (s : AppState) : list Txn :=
  filter (λ t, monthKeyFrom (date t) = activeMonthKey ∧ truthy_flag (deleted t) = false)
         (txns s).

Definition unassigned (activeMonthKey : string) (s : AppState) : list Txn :=
  filter (λ t, bucketId t = None) (monthTxns activeMonthKey s).

Definition assigned (activeMonthKey : string) (s : AppState) : list Txn :=
  filter (λ t, bucketId t ≠ None) (monthTxns activeMonthKey s).

Definition deletedTxns (activeMonthKey : string) (s : AppState) : list Txn :=
  filter (λ t, truthy_flag (deleted t) = true ∧ monthKeyFrom (date t) = activeMonthKey)
         (txns s).

(** [.reduce((s, t) => s + t.amount, 0)] *)
Definition sum_amounts (l : list Txn) : number :=
  foldl (λ s t, PrimFloat.add s (amount t)) 0%float l.

(** Amount left per bucket for month *)
Definition leftFor (activeMonthKey : string) (s : AppState) (bucket : Bucket) : number :=
  let sumAssigned :=
    sum_amounts (filter (λ t, bucketId t = Some (bucket_id bucket))
                        (monthTxns activeMonthKey s)) in
  PrimFloat.add (or_zero (allocations bucket !! activeMonthKey)) sumAssigned.

Record Totals := mkTotals {
  income_total : number; allocated : number; spent : number; savings : number
}.

(** [totals]; [None] stands for the [TypeError] of [incomeBucket.id] when no
    bucket is marked as income. *)
Definition totals (activeMonthKey : string) (s : AppState) : option Totals :=
  match incomeBucket s with
  | None => None
  | Some ib =>
    let month := monthTxns activeMonthKey s in
    let income := sum_amounts (filter (λ t, bucketId t = Some (bucket_id ib)) month) in
    let allocated :=
      foldl (λ sum b, PrimFloat.add sum (or_zero (allocations b !! activeMonthKey)))
            0%float (nonIncomeBuckets activeMonthKey s) in
    let spent :=
      foldl (λ s t, PrimFloat.add s (PrimFloat.abs (amount t))) 0%float
            (filter (λ t, PrimFloat.ltb (amount t) 0 = true) month) in
    Some (mkTotals income allocated spent (PrimFloat.sub income spent))
  end.

(** *** CSV cells *)

(** White space and line terminators, as [String.prototype.trim] strips them
    (those that fit a code unit below 256). *)
Definition is_space (c : Ascii.ascii) : bool :=
  let n := Ascii.nat_of_ascii c in
  (Nat.leb 9 n && Nat.leb n 13) || Nat.eqb n 32 || Nat.eqb n 160.

Fixpoint trimStart (s : string) : string :=
  match s with
  | String c rest => if is_space c then trimStart rest else s
  | EmptyString => EmptyString
  end.

Fixpoint trimEnd (s : string) : string :=
  match s with
  | String c rest =>
      match trimEnd rest with
      | EmptyString => if is_space c then EmptyString else String c EmptyString
      | rest' => String c rest'
      end
  | EmptyString => EmptyString
  end.

Definition trim (s : string) : string := trimEnd (trimStart s).

(** The double-quote character, code 34. *)
Definition double_quote : Ascii.ascii := Ascii.ascii_of_byte Byte.x22.

(** The loop of [splitCSVLine], first revision (79-90): the cells pushed so
    far, the current cell, and whether a quote is open. *)
Fixpoint splitCSVLine_v1_loop (line : string) (out : list string) (cur : string)
    (inQ : bool) : list string * string :=
  match line with
  | EmptyString => (out, cur)
  | String c rest =>
      if Ascii.eqb c double_quote then splitCSVLine_v1_loop rest out cur (negb inQ)
      else if Ascii.eqb c ","%char && negb inQ
      then splitCSVLine_v1_loop rest (out ++ [cur]) "" inQ
      else splitCSVLine_v1_loop rest out (cur +:+ String c "") inQ
  end.

Definition splitCSVLine_v1 (line : string) : list string :=
  let '(out, cur) := splitCSVLine_v1_loop line [] "" false in
  trim <$> (out ++ [cur]).

(** Current revision (742-754): each cell is trimmed as it is pushed. *)
Fixpoint splitCSVLine_loop (line : string) (out : list string) (cell : string)
    (inQuote : bool) : list string * string :=
  match line with
  | EmptyString => (out, cell)
  | String c rest =>
      if Ascii.eqb c double_quote then splitCSVLine_loop rest out cell (negb inQuote)
      else if Ascii.eqb c ","%char && negb inQuote
      then splitCSVLine_loop rest (out ++ [trim cell]) "" inQuote
      else splitCSVLine_loop rest out (cell +:+ String c "") inQuote
  end.

Definition splitCSVLine (line : string) : list string :=
  let '(out, cell) := splitCSVLine_loop line [] "" false in
  out ++ [trim cell].

(** Does the character occur in the string. *)
Fixpoint has_char (c : Ascii.ascii) (s : string) : bool :=
  match s with
  | EmptyString => false
  | String x rest => Ascii.eqb x c || has_char c rest
  end.

(** The string without its double quotes. *)
Fixpoint drop_quotes (s : string) : string :=
  match s with
  | EmptyString => EmptyString
  | String c rest =>
      if Ascii.eqb c double_quote then drop_quotes rest else String c (drop_quotes rest)
  end.

(** The escaping [exportCSV] applies to a description (1008, 1015): every
    double quote is doubled. *)
Fixpoint escape_quotes (s : string) : string :=
  match s with
  | EmptyString => EmptyString
  | String c rest =>
      if Ascii.eqb c double_quote
      then String double_quote (String double_quote (escape_quotes rest))
      else String c (escape_quotes rest)
  end.

(** A cell between double quotes, as the rows of [exportCSV] have them. *)
Definition quoted (cell : string) : string :=
  String double_quote (cell +:+ String double_quote "").

(** A row of [exportCSV]: the template literal of line 1008.  Every value is
    put between double quotes as it is; only the description has its double
    quotes doubled.  The row of a bucket without transactions (1004) is the
    one with an empty date, description and amount; the row of a transaction
    that is not assigned (1015) has the name Unassigned and an empty
    allocation. *)
Definition export_row (month name allocationStr date description amount : string)
    : string :=
  quoted month +:+ "," +:+ quoted name +:+ "," +:+ quoted allocationStr +:+ "," +:+
  quoted date +:+ "," +:+ quoted (escape_quotes description) +:+ "," +:+ quoted amount.

(** ** Predicates the properties are stated with *)

(** [m1] is the earliest month the bucket has an allocation for. *)
Definition earliest (a : gmap string number) (m1 : string) : Prop :=
  is_Some (a !! m1) ∧ ∀ k, is_Some (a !! k) → str_le m1 k.

(** What the effect for month [M] may change in a bucket: nothing but a new
    allocation entry keyed by [M]. *)
Definition bucket_frame (M : string) (b b' : Bucket) : Prop :=
  bucket_id b' = bucket_id b ∧ bucket_name b' = bucket_name b ∧
  category b' = category b ∧ isIncome b' = isIncome b ∧
  deletedMonths b' = deletedMonths b ∧
  (∀ k v, allocations b !! k = Some v → allocations b' !! k = Some v) ∧
  (∀ k, k ≠ M → allocations b' !! k = allocations b !! k).

Definition state_frame (M : string) (s s' : AppState) : Prop :=
  txns s' = txns s ∧ version s' = version s ∧
  Forall2 (bucket_frame M) (buckets s) (buckets s').

(** *** Test ledger: the scenario of the specification (Groceries, 600) *)
Definition groceries : Bucket :=
  mkBucket "b1" "Groceries" None {[ "2024-01" := 600%float ]} None None.
Definition income : Bucket :=
  mkBucket "income" "Income" None {[ "2024-01" := 0%float ]} (Some true) None.
Definition rent : Bucket :=
  mkBucket "b2" "Rent" None
    (<[ "2023-11" := 1500%float ]> {[ "2023-12" := 1600%float ]}) None None.
Definition ledger0 : AppState := mkAppState [income; groceries] [] (Some 1%float).

(** The same ledger with three transactions of January 2024: a purchase
    assigned to Groceries, the salary, and a purchase not assigned yet. *)
Definition market : Txn :=
  mkTxn "t1" "2024-01-05" "Market" (-25)%float (Some "b1") None.
Definition salary : Txn :=
  mkTxn "t2" "2024-01-31" "Salary" 3000%float (Some "income") None.
Definition coffee : Txn :=
  mkTxn "t3" "2024-01-09" "Coffee" (-4)%float None None.
Definition ledger1 : AppState :=
  mkAppState [income; groceries] [market; salary; coffee] (Some 1%float).

(** * The persistence layer ([src/lib/crypto.ts], [src/lib/storage.ts]) *)

(** ** JavaScript values that cross the layer

    [AppState] is [any] in [storage.ts]; what is stored and shipped is what
    [JSON.parse] can return.  [undefined] is [None] of [option json]. *)
#[warnings="-register-all"]
Inductive json : Type :=
  | JNull
  | JBool (b : bool)
  | JNumber (n : number)
  | JString (s : string)
  | JArray (items : list json)
  | JObject (fields : list (string * json)).

(** [o.k]: an own property of an object, [undefined] on anything else
    ([null] is never dereferenced by the program: it tests [!parsed] first). *)
Definition get_field (k : string) (o : json) : option json :=
  match o with
  | JObject fields => snd <$> find (λ kv, bool_decide (kv.1 = k)) fields
  | _ => None
  end.

(** [!!x] for a value [JSON.parse] returned. *)
Definition truthy (x : json) : bool :=
  match x with
  | JNull => false
  | JBool b => b
  | JNumber n => negb (PrimFloat.eqb n 0) && negb (PrimFloat.is_nan n)
  | JString s => bool_decide (s ≠ "")
  | JArray _ | JObject _ => true
  end.

(** [x !== n] for a number literal [n]. *)
Definition strict_ne_number (x : option json) (n : number) : bool :=
  match x with
  | Some (JNumber m) => negb (PrimFloat.eqb m n)
  | _ => true
  end.

(** ** Exceptions and the world the program runs in *)

Inductive exn : Type :=
  | Error (message : string)             (* [new Error(message)] *)
  | SyntaxError                          (* [JSON.parse] *)
  | InvalidCharacterError                (* [atob] *)
  | OperationError                       (* [crypto.subtle.decrypt] *)
  | QuotaExceededError                   (* [localStorage.setItem] *)
  | TypeError                            (* a property of [undefined] *)
  | PostgrestError (message : string).   (* the [error] of a Supabase reply *)

Inductive Result (A : Type) : Type :=
  | Return (a : A)
  | Throw (e : exn).
Arguments Return {A} a.
Arguments Throw {A} e.

(** [window.localStorage]: its items, and whether [setItem] is refused. *)
Record Storage := mkStorage {
  items : gmap string string;
  quota_exceeded : bool
}.

(** The table [states] behind the Supabase client, one payload per
    [household_id], and the error the backend answers a read or a write with,
    when it does. *)
Record Backend := mkBackend {
  states : gmap string json;
  read_error : option string;
  write_error : option string
}.

(** What the program did to the outside, latest first. *)
Inductive Event : Type :=
  | EvGetItem (key : string)
  | EvSetItem (key value : string)
  | EvSelect (household_id : string)
  | EvUpsert (household_id : string) (payload : json)
  | EvGetRandomValues (n : nat)
  | EvImportKey
  | EvDeriveKey (salt : list Byte.byte)
  | EvEncrypt
  | EvDecrypt.

Record World := mkWorld {
  localStorage : option Storage;         (* [None]: no usable [window.localStorage] *)
  SUPABASE_URL : option string;          (* [window.SUPABASE_URL] *)
  SUPABASE_ANON_KEY : option string;     (* [window.SUPABASE_ANON_KEY] *)
  backend : Backend;
  entropy : nat → Byte.byte;             (* what [getRandomValues] will draw *)
  drawn : nat;                           (* how much of it was drawn *)
  log : list Event
}.

(** Promise-returning code: world passing with exceptions; [await] is bind. *)
Definition M (A : Type) : Type := World → Result A * World.

Definition ret {A} (a : A) : M A := λ w, (Return a, w).
Definition throw {A} (e : exn) : M A := λ w, (Throw e, w).
Definition bind {A B} (m : M A) (k : A → M B) : M B :=
  λ w, match m w with
       | (Return a, w') => k a w'
       | (Throw e, w') => (Throw e, w')
       end.
(** [try { m } catch { h }] *)
Definition try_catch {A} (m : M A) (h : exn → M A) : M A :=
  λ w, match m w with
       | (Return a, w') => (Return a, w')
       | (Throw e, w') => h e w'
       end.
Definition lift {A} (r : Result A) : M A := λ w, (r, w).

#[global] Instance M_ret : MRet M := @ret.
#[global] Instance M_bind : MBind M := λ A B k m, bind m k.

Definition get_world : M World := λ w, (Return w, w).

Definition emit (e : Event) : M unit :=
  λ w, (Return tt,
        {| localStorage := localStorage w; SUPABASE_URL := SUPABASE_URL w;
           SUPABASE_ANON_KEY := SUPABASE_ANON_KEY w; backend := backend w;
           entropy := entropy w; drawn := drawn w; log := e :: log w |}).

Definition set_localStorage (st : Storage) : M unit :=
  λ w, (Return tt,
        {| localStorage := Some st; SUPABASE_URL := SUPABASE_URL w;
           SUPABASE_ANON_KEY := SUPABASE_ANON_KEY w; backend := backend w;
           entropy := entropy w; drawn := drawn w; log := log w |}).

Definition set_backend (be : Backend) : M unit :=
  λ w, (Return tt,
        {| localStorage := localStorage w; SUPABASE_URL := SUPABASE_URL w;
           SUPABASE_ANON_KEY := SUPABASE_ANON_KEY w; backend := be;
           entropy := entropy w; drawn := drawn w; log := log w |}).

(** [crypto.getRandomValues(new Uint8Array(n))] *)
Definition getRandomValues (n : nat) : M (list Byte.byte) :=
  λ w, (Return (entropy w <$> seq (drawn w) n),
        {| localStorage := localStorage w; SUPABASE_URL := SUPABASE_URL w;
           SUPABASE_ANON_KEY := SUPABASE_ANON_KEY w; backend := backend w;
           entropy := entropy w; drawn := drawn w + n;
           log := EvGetRandomValues n :: log w |}).

(** ** The platform: what the browser and the Supabase client provide *)

Record Pbkdf2Params := mkPbkdf2Params {
  pbkdf2_name : string; pbkdf2_salt : list Byte.byte;
  pbkdf2_iterations : N; pbkdf2_hash : string
}.
Record AesKeyGenParams := mkAesKeyGenParams { aes_name : string; aes_length : N }.
Record AesGcmParams := mkAesGcmParams { gcm_name : string; gcm_iv : list Byte.byte }.

Class Platform := {
  JSON_stringify : json → string;
  JSON_parse : string → Result json;
  btoa : string → string;
  (** [atob] is handed whatever the parsed payload holds under the key *)
  atob : option json → Result string;
  TextEncoder_encode : string → list Byte.byte;
  TextDecoder_decode : list Byte.byte → string;
  CryptoKey : Type;
  subtle_importKey :
    string → list Byte.byte → string → bool → list string → CryptoKey;
  subtle_deriveKey :
    Pbkdf2Params → CryptoKey → AesKeyGenParams → bool → list string → CryptoKey;
  subtle_encrypt : AesGcmParams → CryptoKey → list Byte.byte → list Byte.byte;
  subtle_decrypt : AesGcmParams → CryptoKey → list Byte.byte → Result (list Byte.byte);
  (** does [createClient(url, key)] throw *)
  createClient_throws : string → string → bool
}.

Section program.
Context `{Platform}.

(** *** [src/lib/crypto.ts] *)

Definition String_fromCharCode (b : Byte.byte) : string :=
  String (Ascii.ascii_of_byte b) "".

(** [bin.charCodeAt(i)] for every [i], stored into a [Uint8Array] *)
Fixpoint charCodes (bin : string) : list Byte.byte :=
  match bin with
  | EmptyString => []
  | String c rest => Ascii.byte_of_ascii c :: charCodes rest
  end.

Definition b64Encode (bytes : list Byte.byte) : string :=
  let bin := foldl (λ bin b, bin +:+ String_fromCharCode b) "" bytes in
  btoa bin.

Definition b64DecodeToBytes (b64 : option json) : M (list Byte.byte) :=
  bin ← lift (atob b64);
  mret (charCodes bin).

Definition deriveKey (passphrase : string) (saltBytes : list Byte.byte) : M CryptoKey :=
  let encText := TextEncoder_encode passphrase in
  emit EvImportKey;;
  let baseKey := subtle_importKey "raw" encText "PBKDF2" false ["deriveKey"] in
  let params := mkPbkdf2Params "PBKDF2" saltBytes 100000 "SHA-256" in
  emit (EvDeriveKey saltBytes);;
  mret (subtle_deriveKey params baseKey (mkAesKeyGenParams "AES-GCM" 256)
          false ["encrypt"; "decrypt"]).

(** The stored shape [{ v: 1, salt, iv, cipher }]. *)
Definition envelope (salt iv cipher : string) : json :=
  JObject [("v", JNumber 1); ("salt", JString salt);
           ("iv", JString iv); ("cipher", JString cipher)].

Definition encryptJSON (passphrase : string) (obj : json) : M string :=
  salt ← getRandomValues 16;
  iv ← getRandomValues 12;
  key ← deriveKey passphrase salt;
  let plaintext := TextEncoder_encode (JSON_stringify obj) in
  let encParams := mkAesGcmParams "AES-GCM" iv in
  emit EvEncrypt;;
  let cipherBuf := subtle_encrypt encParams key plaintext in
  mret (JSON_stringify (envelope (b64Encode salt) (b64Encode iv) (b64Encode cipherBuf))).

Definition decryptJSON (passphrase : string) (payload : string) : M json :=
  parsed ← lift (JSON_parse payload);
  if negb (truthy parsed) || strict_ne_number (get_field "v" parsed) 1
  then throw (Error "Unsupported payload") else
  saltBytes ← b64DecodeToBytes (get_field "salt" parsed);
  ivBytes ← b64DecodeToBytes (get_field "iv" parsed);
  cipherBytes ← b64DecodeToBytes (get_field "cipher" parsed);
  key ← deriveKey passphrase saltBytes;
  let decParams := mkAesGcmParams "AES-GCM" ivBytes in
  emit EvDecrypt;;
  plainBuf ← lift (subtle_decrypt decParams key cipherBytes);
  let text := TextDecoder_decode plainBuf in
  lift (JSON_parse text).

(** *** [src/lib/storage.ts] *)

Definition LOCAL_STORAGE_KEY : string := "trowbridge-budget-state".

Definition hasLocalStorage : M bool :=
  w ← get_world;
  mret (bool_decide (is_Some (localStorage w))).

(** [window.localStorage.getItem(key)] *)
Definition localStorage_getItem (key : string) : M (option string) :=
  emit (EvGetItem key);;
  w ← get_world;
  mret (localStorage w ≫= λ st, items st !! key).

(** [window.localStorage.setItem(key, value)] *)
Definition localStorage_setItem (key value : string) : M unit :=
  emit (EvSetItem key value);;
  w ← get_world;
  match localStorage w with
  | Some st =>
      if quota_exceeded st then throw QuotaExceededError
      else set_localStorage (mkStorage (<[key := value]> (items st)) (quota_exceeded st))
  | None => throw TypeError
  end.

(** --- Local (offline-first) --- *)
Definition loadLocal : M json :=
  has ← hasLocalStorage;
  if negb has then mret JNull else
  try_catch
    (raw ← localStorage_getItem LOCAL_STORAGE_KEY;
     if truthy_string raw then lift (JSON_parse (default "" raw)) else mret JNull)
    (λ _, mret JNull).

Definition saveLocal (state : json) : M unit :=
  has ← hasLocalStorage;
  if negb has then mret tt else
  try_catch
    (localStorage_setItem LOCAL_STORAGE_KEY (JSON_stringify state))
    (λ _, mret tt).

(** --- Supabase client --- *)
Record SupabaseClient := mkClient { client_url : string; client_key : string }.

Definition getSupabase : M (option SupabaseClient) :=
  w ← get_world;
  let url := SUPABASE_URL w in
  let key := SUPABASE_ANON_KEY w in
  if negb (truthy_string url) || negb (truthy_string key) then mret None
  else
    if createClient_throws (default "" url) (default "" key) then mret None
    else mret (Some (mkClient (default "" url) (default "" key))).

Definition cloudAvailable : M bool :=
  sb ← getSupabase;
  mret (bool_decide (is_Some sb)).

(** [sb.from("states").select("payload").eq("household_id", id).maybeSingle()]:
    the reply [{ data, error }], [data] being the payload of the row. *)
Definition select_payload (sb : SupabaseClient) (householdId : string)
    : M (option json * option exn) :=
  emit (EvSelect householdId);;
  w ← get_world;
  match read_error (backend w) with
  | Some msg => mret (None, Some (PostgrestError msg))
  | None => mret (states (backend w) !! householdId, None)
  end.

(** [sb.from("states").upsert({ household_id, payload })]: the reply's [error] *)
Definition upsert_payload (sb : SupabaseClient) (householdId : string) (payload : json)
    : M (option exn) :=
  emit (EvUpsert householdId payload);;
  w ← get_world;
  match write_error (backend w) with
  | Some msg => mret (Some (PostgrestError msg))
  | None =>
      set_backend
        (mkBackend (<[householdId := payload]> (states (backend w)))
                   (read_error (backend w)) (write_error (backend w)));;
      mret None
  end.

(** --- Cloud load/save (encrypted) --- *)
Definition loadFromCloud (householdId passphrase : string) : M json :=
  sb ← getSupabase;
  match sb with
  | None => mret JNull
  | Some sb =>
    reply ← select_payload sb householdId;
    let data := reply.1 in
    let error := reply.2 in
    match error, data with
    | Some _, _ | _, None => mret JNull
    | None, Some payload =>
      let encryptedString := JSON_stringify payload in
      state ← decryptJSON passphrase encryptedString;
      mret state
    end
  end.

Definition saveToCloud (householdId passphrase : string) (state : json) : M unit :=
  sb ← getSupabase;
  match sb with
  | None => mret tt
  | Some sb =>
    encrypted ← encryptJSON passphrase state;
    payload ← lift (JSON_parse encrypted);
    error ← upsert_payload sb householdId payload;
    match error with
    | Some e => throw e
    | None => mret tt
    end
  end.

(** --- High-level API used by the app --- *)
Definition loadState (householdId passphrase : option string) : M json :=
  let fallback := loadLocal in
  if truthy_string householdId && truthy_string passphrase then
    available ← cloudAvailable;
    if (available : bool) then
      remote ← loadFromCloud (default "" householdId) (default "" passphrase);
      if truthy remote then saveLocal remote;; mret remote else fallback
    else fallback
  else fallback.

Definition saveState (state : json) (householdId passphrase : option string) : M unit :=
  saveLocal state;;
  if truthy_string householdId && truthy_string passphrase then
    available ← cloudAvailable;
    if (available : bool)
    then saveToCloud (default "" householdId) (default "" passphrase) state
    else mret tt
  else mret tt.

End program.

(** ** A small executable platform

    A stand-in for the browser, used to run the program on concrete inputs and
    to show that the platform laws assumed further down can be met together.
    The serialisation is a tagged prefix code, not JSON text; of the numbers
    it knows 1 and 2 and takes every other one for 0.  The cipher prepends
    the key and the IV to the plaintext and checks them on the way back. *)
Module Toy.

Fixpoint enc (s : string) : string :=
  match s with
  | EmptyString => "."
  | String a rest => String "+"%char (String a (enc rest))
  end.

Fixpoint dec (s : string) : option (string * string) :=
  match s with
  | String c rest =>
      if Ascii.eqb c "."%char then Some ("", rest)
      else if Ascii.eqb c "+"%char then
        match rest with
        | String a rest' =>
            match dec rest' with
            | Some (r, rest'') => Some (String a r, rest'')
            | None => None
            end
        | EmptyString => None
        end
      else None
  | EmptyString => None
  end.

Fixpoint ser (j : json) : string :=
  match j with
  | JNull => "n"
  | JBool true => "t"
  | JBool false => "f"
  | JNumber x =>
      if PrimFloat.eqb x 1 then "1" else if PrimFloat.eqb x 2 then "2" else "0"
  | JString s => "s" +:+ enc s
  | JArray l =>
      "[" +:+ (fix items l :=
                 match l with
                 | [] => "]"
                 | x :: l' => ser x +:+ items l'
                 end) l
  | JObject fs =>
      "{" +:+ (fix fields fs :=
                 match fs with
                 | [] => "}"
                 | (k, v) :: fs' => enc k +:+ ser v +:+ fields fs'
                 end) fs
  end.

Fixpoint parse_value (fuel : nat) (s : string) : option (json * string) :=
  match fuel, s with
  | S n, String c rest =>
      if Ascii.eqb c "n"%char then Some (JNull, rest)
      else if Ascii.eqb c "t"%char then Some (JBool true, rest)
      else if Ascii.eqb c "f"%char then Some (JBool false, rest)
      else if Ascii.eqb c "1"%char then Some (JNumber 1, rest)
      else if Ascii.eqb c "2"%char then Some (JNumber 2, rest)
      else if Ascii.eqb c "0"%char then Some (JNumber 0, rest)
      else if Ascii.eqb c "s"%char then
        match dec rest with
        | Some (str, rest') => Some (JString str, rest')
        | None => None
        end
      else if Ascii.eqb c "["%char then
        match parse_items n rest with
        | Some (l, rest') => Some (JArray l, rest')
        | None => None
        end
      else if Ascii.eqb c "{"%char then
        match parse_fields n rest with
        | Some (fs, rest') => Some (JObject fs, rest')
        | None => None
        end
      else None
  | _, _ => None
  end
with parse_items (fuel : nat) (s : string) : option (list json * string) :=
  match fuel, s with
  | S n, String c rest =>
      if Ascii.eqb c "]"%char then Some ([], rest)
      else
        match parse_value n s with
        | Some (x, rest') =>
            match parse_items n rest' with
            | Some (l, rest'') => Some (x :: l, rest'')
            | None => None
            end
        | None => None
        end
  | _, _ => None
  end
with parse_fields (fuel : nat) (s : string) : option (list (string * json) * string) :=
  match fuel, s with
  | S n, String c rest =>
      if Ascii.eqb c "}"%char then Some ([], rest)
      else
        match dec s with
        | Some (k, rest') =>
            match parse_value n rest' with
            | Some (v, rest'') =>
                match parse_fields n rest'' with
                | Some (fs, rest''') => Some ((k, v) :: fs, rest''')
                | None => None
                end
            | None => None
            end
        | None => None
        end
  | _, _ => None
  end.

Definition parse (s : string) : Result json :=
  match parse_value (8 + 2 * String.length s) s with
  | Some (j, EmptyString) => Return j
  | _ => Throw SyntaxError
  end.

Definition decode64 (b64 : option json) : Result string :=
  match b64 with
  | Some (JString s) => Return s
  | _ => Throw InvalidCharacterError
  end.

Fixpoint strip_prefix (pre l : list Byte.byte) : option (list Byte.byte) :=
  match pre, l with
  | [], _ => Some l
  | p :: pre', x :: l' => if Byte.eqb p x then strip_prefix pre' l' else None
  | _ :: _, [] => None
  end.

Definition encrypt (params : AesGcmParams) (key pt : list Byte.byte) : list Byte.byte :=
  key ++ gcm_iv params ++ pt.

Definition decrypt (params : AesGcmParams) (key ct : list Byte.byte)
    : Result (list Byte.byte) :=
  match strip_prefix (key ++ gcm_iv params) ct with
  | Some pt => Return pt
  | None => Throw OperationError
  end.

#[export] Instance platform : Platform := {|
  JSON_stringify := ser;
  JSON_parse := parse;
  btoa := λ bin, bin;
  atob := decode64;
  TextEncoder_encode := String.list_byte_of_string;
  TextDecoder_decode := String.string_of_list_byte;
  CryptoKey := list Byte.byte;
  subtle_importKey := λ _ keyData _ _ _, keyData;
  subtle_deriveKey := λ params baseKey _ _ _, baseKey ++ pbkdf2_salt params;
  subtle_encrypt := encrypt;
  subtle_decrypt := decrypt;
  createClient_throws := λ _ _, false
|}.

(** The document of the specification's scenario. *)
Definition doc : json :=
  JObject [("buckets", JArray []); ("txns", JArray [])].

(** A browser with an empty, working [localStorage] and a configured,
    reachable backend with no row. *)
Definition world0 : World := {|
  localStorage := Some (mkStorage ∅ false);
  SUPABASE_URL := Some "https://example.supabase.co";
  SUPABASE_ANON_KEY := Some "anon";
  backend := mkBackend ∅ None None;
  entropy := λ n, default Byte.x00 (Byte.of_nat (n `mod` 256));
  drawn := 0;
  log := []
|}.

Definition with_localStorage (ls : option Storage) (w : World) : World :=
  {| localStorage := ls; SUPABASE_URL := SUPABASE_URL w;
     SUPABASE_ANON_KEY := SUPABASE_ANON_KEY w; backend := backend w;
     entropy := entropy w; drawn := drawn w; log := log w |}.

Definition with_backend (be : Backend) (w : World) : World :=
  {| localStorage := localStorage w; SUPABASE_URL := SUPABASE_URL w;
     SUPABASE_ANON_KEY := SUPABASE_ANON_KEY w; backend := be;
     entropy := entropy w; drawn := drawn w; log := log w |}.




(** The ledger has been saved, locally and to the cloud, under the
    passphrase "correct". *)
Definition world_synced : World :=
  (saveState doc (Some "household") (Some "correct") world0).2.

End Toy.

(** ** Definitions the properties are stated and proved with *)

(** [p] is the most recent month strictly before [M] that has an allocation. *)
Definition latest_before (a : gmap string number) (M p : string) : Prop :=
  is_Some (a !! p) ∧ str_lt p M ∧
  ∀ k, is_Some (a !! k) → str_lt k M → str_le k p.

Definition prevKeys_of (a : gmap string number) (M : string) : list string :=
  filter (λ k, str_lt k M) (sort (Object_keys a)).

(** [p] is the latest month of the bucket, and holds [v]. *)
Definition latest_is (a : gmap string number) (p : string) (v : number) : Prop :=
  a !! p = Some v ∧ p ≠ "" ∧ ∀ k, is_Some (a !! k) → str_le k p.

(** [{ ...b, isIncome: flag }] *)
Definition with_isIncome (b : Bucket) (flag : option bool) : Bucket :=
  {| bucket_id := bucket_id b; bucket_name := bucket_name b;
     category := category b; allocations := allocations b;
     isIncome := flag; deletedMonths := deletedMonths b |}.

(** What [encryptJSON] returns, in terms of the bytes it drew. *)
Definition sealed `{Platform}
    (passphrase : string) (obj : json) (salt iv : list Byte.byte) : string :=
  let baseKey :=
    subtle_importKey "raw" (TextEncoder_encode passphrase) "PBKDF2" false ["deriveKey"] in
  let key :=
    subtle_deriveKey (mkPbkdf2Params "PBKDF2" salt 100000 "SHA-256") baseKey
      (mkAesKeyGenParams "AES-GCM" 256) false ["encrypt"; "decrypt"] in
  let cipherBuf :=
    subtle_encrypt (mkAesGcmParams "AES-GCM" iv) key
      (TextEncoder_encode (JSON_stringify obj)) in
  JSON_stringify (envelope (b64Encode salt) (b64Encode iv) (b64Encode cipherBuf)).

(** The object [encryptJSON] serialises, in terms of the bytes it drew. *)
Definition sealed_envelope `{Platform}
    (passphrase : string) (obj : json) (salt iv : list Byte.byte) : json :=
  let baseKey :=
    subtle_importKey "raw" (TextEncoder_encode passphrase) "PBKDF2" false ["deriveKey"] in
  let key :=
    subtle_deriveKey (mkPbkdf2Params "PBKDF2" salt 100000 "SHA-256") baseKey
      (mkAesKeyGenParams "AES-GCM" 256) false ["encrypt"; "decrypt"] in
  let cipherBuf :=
    subtle_encrypt (mkAesGcmParams "AES-GCM" iv) key
      (TextEncoder_encode (JSON_stringify obj)) in
  envelope (b64Encode salt) (b64Encode iv) (b64Encode cipherBuf).

(** The local slot once [saveLocal state] has run. *)
Definition local_after_save `{Platform} (state : json) (ls : option Storage)
    : option Storage :=
  match ls with
  | Some st =>
      if quota_exceeded st then Some st
      else Some (mkStorage (<[LOCAL_STORAGE_KEY := JSON_stringify state]> (items st))
                           (quota_exceeded st))
  | None => None
  end.

(** What [loadLocal] returns from a given local slot. *)
Definition local_snapshot `{Platform} (ls : option Storage) : json :=
  match ls with
  | Some st =>
      match items st !! LOCAL_STORAGE_KEY with
      | Some raw =>
          if bool_decide (raw ≠ "") then
            match JSON_parse raw with
            | Return state => state
            | Throw _ => JNull
            end
          else JNull
      | None => JNull
      end
  | None => JNull
  end.

(** One step of the field loop, on an input that starts with a key. *)
Definition toy_field_step (n : nat) (k : string) (rest : string)
    : option (list (string * json) * string) :=
  match Toy.parse_value n rest with
  | Some (v, r1) =>
      match Toy.parse_fields n r1 with
      | Some (fs, r2) => Some ((k, v) :: fs, r2)
      | None => None
      end
  | None => None
  end.

(** * Properties *)

(** ** The scenarios of the specification, run *)

Example groceries_march :
  allocations (carryBucket "2024-03" groceries) !! "2024-03" = Some 600%float.
Proof. vm_compute. reflexivity. Qed.

Example groceries_december_before :
  carryBucket "2023-12" groceries = groceries.
Proof. vm_compute. reflexivity. Qed.

Example groceries_v1_december_before :
  allocations (carryBucket_v1 "2023-12" groceries) !! "2023-12" = Some 0%float.
Proof. vm_compute. reflexivity. Qed.

(** ** The string order is a total order *)

Lemma str_ltb_compare a b : str_ltb a b = true ↔ String.compare a b = Lt.
Proof. unfold str_ltb, String.ltb. destruct (String.compare a b); naive_solver. Qed.

Lemma str_le_compare a b : str_le a b ↔ String.compare a b ≠ Gt.
Proof. unfold str_le, String.leb. destruct (String.compare a b); naive_solver. Qed.

Lemma str_lt_le_ne a b : str_lt a b ↔ str_le a b ∧ a ≠ b.
Proof.
  unfold str_lt. rewrite str_ltb_compare, str_le_compare. split.
  - intros Hlt. split; [congruence|]. intros ->.
    apply String_as_OT.cmp_lt in Hlt.
    by apply String_as_OT.lt_not_eq in Hlt.
  - intros [Hle Hne]. destruct (String.compare a b) eqn:Hc; try done.
    by apply String.compare_eq_iff in Hc.
Qed.

Lemma str_le_lt_eq a b : str_le a b ↔ str_lt a b ∨ a = b.
Proof.
  rewrite str_lt_le_ne. split.
  - intros Hle. destruct (decide (a = b)); auto.
  - intros [[? _]| ->]; [done|].
    apply str_le_compare.
    pose proof (proj2 (String_as_OT.cmp_eq b b) eq_refl) as Hc.
    unfold String_as_OT.cmp in Hc. by rewrite Hc.
Qed.

Lemma str_lt_trans a b c : str_lt a b → str_lt b c → str_lt a c.
Proof.
  unfold str_lt. rewrite !str_ltb_compare. intros H1 H2.
  apply String_as_OT.cmp_lt.
  eapply String_as_OT.lt_trans; by apply String_as_OT.cmp_lt.
Qed.

Lemma str_lt_irrefl a : ¬ str_lt a a.
Proof. rewrite str_lt_le_ne. by intros [_ ?]. Qed.

#[global] Instance str_le_refl : Reflexive str_le.
Proof. intros a. apply str_le_lt_eq. by right. Qed.

#[global] Instance str_le_trans : Transitive str_le.
Proof.
  intros a b c. rewrite !str_le_lt_eq.
  intros [H1| ->] [H2| ->]; eauto using str_lt_trans.
Qed.

#[global] Instance str_le_total : Total str_le.
Proof. intros a b. apply String.leb_total. Qed.

#[global] Instance str_le_antisym : AntiSymm (=) str_le.
Proof. intros a b. apply String.leb_antisym. Qed.

Lemma str_not_lt a b : ¬ str_lt a b ↔ str_le b a.
Proof.
  rewrite str_lt_le_ne. split.
  - intros Hn. destruct (total str_le a b) as [Hab|]; [|done].
    destruct (decide (a = b)) as [->|]; [done|]. naive_solver.
  - intros Hba [Hab Hne]. apply Hne. by apply (anti_symm str_le).
Qed.

Lemma str_lt_le_trans a b c : str_lt a b → str_le b c → str_lt a c.
Proof. rewrite (str_le_lt_eq b c). intros ? [?| <-]; eauto using str_lt_trans. Qed.

Lemma str_le_lt_trans a b c : str_le a b → str_lt b c → str_lt a c.
Proof. rewrite (str_le_lt_eq a b). intros [?| ->] ?; eauto using str_lt_trans. Qed.

Lemma str_ltb_false a b : str_ltb a b = false ↔ str_le b a.
Proof. rewrite <-str_not_lt. unfold str_lt. by destruct (str_ltb a b). Qed.

Lemma str_empty_least a : str_le "" a.
Proof. by destruct a. Qed.

Lemma str_lt_nonempty a b : str_lt a b → b ≠ "".
Proof. intros Hlt ->. by destruct a. Qed.

(** ** Keys, sorting, and the most recent earlier month *)

Lemma elem_of_Object_keys {V} (o : gmap string V) k :
  k ∈ Object_keys o ↔ is_Some (o !! k).
Proof.
  unfold Object_keys. rewrite list_elem_of_fmap. split.
  - intros [[k' v] [-> Hin]]. apply elem_of_map_to_list in Hin. eauto.
  - intros [v Hv]. exists (k, v). split; [done|]. by apply elem_of_map_to_list.
Qed.

Lemma elem_of_sort l k : k ∈ sort l ↔ k ∈ l.
Proof. unfold sort. by rewrite merge_sort_Permutation. Qed.

Lemma sort_sorted l : StronglySorted str_le (sort l).
Proof. apply StronglySorted_merge_sort; apply _. Qed.

Lemma sort_nil_iff l : sort l = [] ↔ l = [].
Proof.
  split; [|by intros ->].
  intros Hs. apply Permutation_nil_r. rewrite <-Hs. unfold sort.
  by rewrite merge_sort_Permutation.
Qed.

Lemma StronglySorted_filter_str (P : string → Prop) `{!∀ x, Decision (P x)} l :
  StronglySorted str_le l → StronglySorted str_le (filter P l).
Proof.
  induction 1 as [|x l Hs IH Hall]; [constructor|].
  rewrite filter_cons. case_decide; [|done].
  constructor; [done|]. apply Forall_forall. intros y Hy.
  apply list_elem_of_filter in Hy as [_ Hy].
  rewrite Forall_forall in Hall. auto.
Qed.

(** The two revisions build the list of earlier months in a different order
    of operations (filter then sort, sort then filter); the list is the same. *)
Lemma sort_filter_comm (P : string → Prop) `{!∀ x, Decision (P x)} l :
  sort (filter P l) = filter P (sort l).
Proof.
  apply (StronglySorted_unique str_le).
  - apply sort_sorted.
  - apply StronglySorted_filter_str, sort_sorted.
  - unfold sort. by rewrite !merge_sort_Permutation.
Qed.

Lemma sorted_head_least l x y :
  StronglySorted str_le l → head l = Some x → y ∈ l → str_le x y.
Proof.
  intros Hs Hh Hy. destruct l as [|x' l]; simplify_eq/=.
  apply StronglySorted_cons in Hs as [Hall _].
  apply elem_of_cons in Hy as [->|Hy]; [done|].
  rewrite Forall_forall in Hall. auto.
Qed.

Lemma sorted_last_greatest l x y :
  StronglySorted str_le l → last l = Some x → y ∈ l → str_le y x.
Proof.
  intros Hs Hl Hy. apply last_Some in Hl as [l' ->].
  apply elem_of_app in Hy as [Hy|Hy].
  - eapply StronglySorted_app_1_elem_of; [done..|]. by apply list_elem_of_singleton.
  - apply list_elem_of_singleton in Hy as ->. done.
Qed.


Lemma elem_of_prevKeys a M k :
  k ∈ prevKeys_of a M ↔ is_Some (a !! k) ∧ str_lt k M.
Proof.
  unfold prevKeys_of.
  rewrite list_elem_of_filter, elem_of_sort, elem_of_Object_keys. tauto.
Qed.

Lemma last_prevKeys_Some a M p :
  last (prevKeys_of a M) = Some p ↔ latest_before a M p.
Proof.
  assert (StronglySorted str_le (prevKeys_of a M)) as Hs
    by apply StronglySorted_filter_str, sort_sorted.
  split.
  - intros Hl. pose proof (last_Some_elem_of _ _ Hl) as Hin.
    apply elem_of_prevKeys in Hin as [Hk Hlt]. split_and!; [done..|].
    intros k Hk' Hlt'. eapply sorted_last_greatest; [done..|].
    by apply elem_of_prevKeys.
  - intros (Hk & Hlt & Hmax).
    destruct (last (prevKeys_of a M)) as [q|] eqn:Hl.
    + f_equal. apply (anti_symm str_le).
      * apply last_Some_elem_of, elem_of_prevKeys in Hl as [??]. by apply Hmax.
      * eapply sorted_last_greatest; [done..|]. by apply elem_of_prevKeys.
    + apply last_None in Hl.
      assert (p ∈ prevKeys_of a M) as Hin by by apply elem_of_prevKeys.
      rewrite Hl in Hin. by apply elem_of_nil in Hin.
Qed.

Lemma last_prevKeys_None a M :
  last (prevKeys_of a M) = None ↔ ∀ k, is_Some (a !! k) → ¬ str_lt k M.
Proof.
  rewrite last_None. split.
  - intros Hnil k Hk Hlt.
    assert (k ∈ prevKeys_of a M) as Hin by by apply elem_of_prevKeys.
    rewrite Hnil in Hin. by apply elem_of_nil in Hin.
  - intros Hno. destruct (prevKeys_of a M) as [|k l] eqn:Hl; [done|].
    assert (k ∈ prevKeys_of a M) as Hin by (rewrite Hl; left).
    apply elem_of_prevKeys in Hin as [??]. naive_solver.
Qed.

Lemma latest_before_unique a M p q :
  latest_before a M p → latest_before a M q → p = q.
Proof.
  intros H1 H2. apply last_prevKeys_Some in H1. apply last_prevKeys_Some in H2.
  congruence.
Qed.

(** Either some month before [M] has an allocation, and then there is a most
    recent one, or none has. *)
Lemma latest_before_cases a M :
  (∃ p, latest_before a M p) ∨ (∀ k, is_Some (a !! k) → ¬ str_lt k M).
Proof.
  destruct (last (prevKeys_of a M)) as [p|] eqn:Hl.
  - left. exists p. by apply last_prevKeys_Some.
  - right. by apply last_prevKeys_None.
Qed.

Lemma carry_of_key a p :
  is_Some (a !! p) → p ≠ "" → a !! p = Some (carry_of a (Some p)).
Proof.
  intros [v Hv] Hne. unfold carry_of, truthy_string.
  rewrite bool_decide_eq_true_2 by done. by rewrite Hv.
Qed.

(** ** What the effect does to one bucket, case by case *)

Lemma carryBucket_present M b :
  is_Some (allocations b !! M) → carryBucket M b = b.
Proof. intros H. unfold carryBucket. by rewrite decide_True. Qed.

Lemma carryBucket_no_earlier M b :
  (∀ k, is_Some (allocations b !! k) → ¬ str_lt k M) → carryBucket M b = b.
Proof.
  intros Hno. unfold carryBucket.
  destruct (decide (is_Some (allocations b !! M))) as [|HM]; [done|].
  case_decide; [done|].
  destruct (head (sort (Object_keys (allocations b)))) as [firstMonth|] eqn:Hh;
    [|done].
  assert (is_Some (allocations b !! firstMonth)) as Hfirst.
  { apply elem_of_Object_keys, elem_of_sort.
    apply head_Some in Hh as [l' ->]. left. }
  destruct (str_ltb M firstMonth) eqn:Hlt; [done|].
  apply str_ltb_false, str_le_lt_eq in Hlt as [Hlt| ->]; [|done].
  by destruct (Hno firstMonth).
Qed.

Lemma carryBucket_earlier M b p :
  allocations b !! M = None → latest_before (allocations b) M p →
  carryBucket M b =
    with_allocations b (<[M := carry_of (allocations b) (Some p)]> (allocations b)).
Proof.
  intros HM Hp. unfold carryBucket.
  rewrite decide_False by (rewrite HM; by intros [??]).
  pose proof Hp as (Hk & Hlt & _).
  assert (p ∈ sort (Object_keys (allocations b))) as Hin
    by by apply elem_of_sort, elem_of_Object_keys.
  case_decide as Hlen.
  { apply nil_length_inv in Hlen. rewrite Hlen in Hin. by apply elem_of_nil in Hin. }
  destruct (head (sort (Object_keys (allocations b)))) as [firstMonth|] eqn:Hh.
  2:{ apply head_None in Hh. rewrite Hh in Hin. by apply elem_of_nil in Hin. }
  assert (str_le firstMonth p) as Hfp
    by (eapply sorted_head_least; [apply sort_sorted|done..]).
  assert (str_ltb M firstMonth = false) as ->.
  { apply str_ltb_false. apply str_le_lt_eq. left.
    by eapply str_le_lt_trans. }
  apply last_prevKeys_Some in Hp. unfold prevKeys_of in Hp. by rewrite Hp.
Qed.

Lemma carryBucket_v1_present M b :
  is_Some (allocations b !! M) → carryBucket_v1 M b = b.
Proof. intros H. unfold carryBucket_v1. by rewrite decide_True. Qed.

Lemma carryBucket_v1_no_earlier M b :
  allocations b !! M = None →
  (∀ k, is_Some (allocations b !! k) → ¬ str_lt k M) →
  carryBucket_v1 M b = with_allocations b (<[M := 0%float]> (allocations b)).
Proof.
  intros HM Hno. unfold carryBucket_v1.
  rewrite decide_False by (rewrite HM; by intros [??]).
  rewrite sort_filter_comm.
  apply last_prevKeys_None in Hno. unfold prevKeys_of in Hno. by rewrite Hno.
Qed.

Lemma carryBucket_v1_earlier M b p :
  allocations b !! M = None → latest_before (allocations b) M p →
  carryBucket_v1 M b =
    with_allocations b (<[M := carry_of (allocations b) (Some p)]> (allocations b)).
Proof.
  intros HM Hp. unfold carryBucket_v1.
  rewrite decide_False by (rewrite HM; by intros [??]).
  rewrite sort_filter_comm.
  apply last_prevKeys_Some in Hp. unfold prevKeys_of in Hp. by rewrite Hp.
Qed.

(** Whenever some earlier month has an allocation the two revisions agree. *)
Lemma carryBucket_v1_agree M b :
  (is_Some (allocations b !! M) ∨ ∃ k, is_Some (allocations b !! k) ∧ str_lt k M) →
  carryBucket_v1 M b = carryBucket M b.
Proof.
  intros [HM|(k & Hk & Hlt)].
  { by rewrite carryBucket_present, carryBucket_v1_present. }
  destruct (allocations b !! M) eqn:HM.
  { by rewrite carryBucket_present, carryBucket_v1_present by (rewrite HM; eauto). }
  destruct (latest_before_cases (allocations b) M) as [[p Hp]|Hno].
  - by rewrite (carryBucket_earlier M b p), (carryBucket_v1_earlier M b p).
  - by destruct (Hno k).
Qed.

(** ** Carrying forward from the latest allocation *)


Lemma latest_is_fresh a p v M : latest_is a p v → str_lt p M → a !! M = None.
Proof.
  intros (_ & _ & Hmax) Hlt. destruct (a !! M) eqn:HM; [|done].
  destruct (str_lt_irrefl p). eapply str_lt_le_trans; [done|].
  apply Hmax. rewrite HM. eauto.
Qed.

Lemma latest_is_before a p v M :
  latest_is a p v → str_lt p M → latest_before a M p.
Proof. intros (Hp & _ & Hmax) Hlt. split_and!; eauto. Qed.

Lemma latest_is_insert a p v M :
  latest_is a p v → str_lt p M → latest_is (<[M := v]> a) M v.
Proof.
  intros (Hp & Hne & Hmax) Hlt. split_and!.
  - by rewrite lookup_insert_eq.
  - by eapply str_lt_nonempty.
  - intros k. destruct (decide (k = M)) as [->|]; [done|].
    rewrite lookup_insert_ne by done. intros Hk.
    apply str_le_lt_eq. left. eapply str_le_lt_trans; eauto.
Qed.

Lemma carryBucket_latest M b p v :
  latest_is (allocations b) p v → str_lt p M →
  carryBucket M b = with_allocations b (<[M := v]> (allocations b)).
Proof.
  intros Hl Hlt.
  rewrite (carryBucket_earlier M b p)
    by eauto using latest_is_fresh, latest_is_before.
  destruct Hl as (Hp & Hne & _).
  pose proof (carry_of_key (allocations b) p) as Hc.
  rewrite Hp in Hc. specialize (Hc (mk_is_Some _ _ eq_refl) Hne).
  by simplify_eq.
Qed.

Lemma carryBucket_v1_latest M b p v :
  latest_is (allocations b) p v → str_lt p M →
  carryBucket_v1 M b = with_allocations b (<[M := v]> (allocations b)).
Proof.
  intros Hl Hlt. rewrite carryBucket_v1_agree; [by eapply carryBucket_latest|].
  right. exists p. destruct Hl as (Hp & _). split; [|done]. rewrite Hp. eauto.
Qed.

Section sequential.
Variable step : string → Bucket → Bucket.
Hypothesis step_latest : ∀ M b p v,
  latest_is (allocations b) p v → str_lt p M →
  step M b = with_allocations b (<[M := v]> (allocations b)).

(** Visiting months in ascending order, all later than the latest allocation,
    hands the same amount from month to month. *)
Lemma sequential_latest months : ∀ b p v,
  latest_is (allocations b) p v →
  Sorted str_lt (p :: months) →
  ∃ q, last (p :: months) = Some q ∧
       latest_is (allocations (foldl (λ acc m, step m acc) b months)) q v.
Proof using step_latest.
  induction months as [|M months IH]; intros b p v Hl Hs; simpl.
  { exists p. by split. }
  apply Sorted_inv in Hs as [Hs Hhd].
  assert (str_lt p M) as Hlt by by inversion Hhd.
  rewrite (step_latest M b p v) by done.
  destruct (IH (with_allocations b (<[M := v]> (allocations b))) M v)
    as (q & Hq & Hlq); [by eapply latest_is_insert|done|].
  by exists q.
Qed.
End sequential.

(** ** The effect on a whole ledger *)

Lemma carryForward_lookup M s i :
  buckets (carryForward M s) !! i = carryBucket M <$> buckets s !! i.
Proof. unfold carryForward. simpl. apply list_lookup_fmap. Qed.

Lemma carryForward_v1_lookup M s i :
  buckets (carryForward_v1 M s) !! i = carryBucket_v1 M <$> buckets s !! i.
Proof. unfold carryForward_v1. simpl. apply list_lookup_fmap. Qed.

Lemma earliest_no_earlier a m1 M :
  earliest a m1 → str_lt M m1 →
  a !! M = None ∧ ∀ k, is_Some (a !! k) → ¬ str_lt k M.
Proof.
  intros [_ Hmin] Hlt. split.
  - destruct (a !! M) eqn:HM; [|done].
    destruct (str_lt_irrefl M). eapply str_lt_le_trans; [done|].
    apply Hmin. rewrite HM. eauto.
  - intros k Hk Hlt'. destruct (str_lt_irrefl M).
    eapply str_lt_le_trans; [done|].
    apply str_le_lt_eq. left. eapply str_le_lt_trans; eauto.
Qed.

(** C4, amended — No retroactive creation, in the current revision only.  A
    bucket that has no allocation entry at the active month [M] and none at
    any month strictly before [M] is returned unchanged by the carry-forward
    effect of the current revision (831-859): no entry is created for it at
    [M].  In particular, when [m1] is the earliest month the bucket has an
    allocation for, running the effect for any month strictly before [m1]
    leaves the bucket as it is.  The first revision of the effect (149-161)
    has no such guard: in the same situations it creates the entry of [M]
    with the allocation 0. *)
Theorem no_retroactive_creation (s : AppState) (i : nat) (b : Bucket) (M : string) :
  buckets s !! i = Some b →
  allocations b !! M = None →
  (∀ k, is_Some (allocations b !! k) → ¬ str_lt k M) →
  buckets (carryForward M s) !! i = Some b ∧
  (∀ m1 M', earliest (allocations b) m1 → str_lt M' m1 →
     allocations b !! M' = None ∧ buckets (carryForward M' s) !! i = Some b) ∧
  buckets (carryForward_v1 M s) !! i
    = Some (with_allocations b (<[M := 0%float]> (allocations b))) ∧
  (∀ m1 M', earliest (allocations b) m1 → str_lt M' m1 →
     buckets (carryForward_v1 M' s) !! i
       = Some (with_allocations b (<[M' := 0%float]> (allocations b)))).
Proof.
  intros Hi HM Hno. split_and!.
  - rewrite carryForward_lookup, Hi. simpl. by rewrite carryBucket_no_earlier.
  - intros m1 M' Hm1 Hlt.
    destruct (earliest_no_earlier _ _ _ Hm1 Hlt) as [HM' Hno'].
    split; [done|].
    rewrite carryForward_lookup, Hi. simpl. by rewrite carryBucket_no_earlier.
  - rewrite carryForward_v1_lookup, Hi. simpl.
    by rewrite carryBucket_v1_no_earlier.
  - intros m1 M' Hm1 Hlt.
    destruct (earliest_no_earlier _ _ _ Hm1 Hlt) as [HM' Hno'].
    rewrite carryForward_v1_lookup, Hi. simpl.
    by rewrite carryBucket_v1_no_earlier.
Qed.

(** The first revision of the effect (lines 149-161) has none of the guards:
    it seeds an allocation of 0 in a month before the bucket existed. *)
Lemma carryBucket_v1_creates_retroactively M b :
  allocations b !! M = None →
  (∀ k, is_Some (allocations b !! k) → ¬ str_lt k M) →
  allocations (carryBucket_v1 M b) !! M = Some 0%float.
Proof.
  intros HM Hno. rewrite carryBucket_v1_no_earlier by done. simpl.
  by rewrite lookup_insert_eq.
Qed.

(** Months before the first allocation can be visited in any number and in
    any order: the bucket stays as it is. *)
Lemma carryBucket_seq_before_first months b m1 :
  earliest (allocations b) m1 →
  Forall (λ M, str_lt M m1) months →
  carryBucket_seq months b = b.
Proof.
  intros Hm1. unfold carryBucket_seq.
  induction 1 as [|M months Hlt _ IH]; [done|]. simpl.
  destruct (earliest_no_earlier _ _ _ Hm1 Hlt) as [_ Hno].
  by rewrite carryBucket_no_earlier.
Qed.

Lemma groceries_no_earlier k :
  is_Some (allocations groceries !! k) → ¬ str_lt k "2023-12".
Proof.
  intros [v Hv]. simpl in Hv.
  apply lookup_singleton_Some in Hv as [<- _]. by vm_compute.
Qed.

Lemma groceries_earliest : earliest (allocations groceries) "2024-01".
Proof.
  split; [by eexists|]. intros k [v Hv]. simpl in Hv.
  apply lookup_singleton_Some in Hv as [<- _]. by vm_compute.
Qed.

Lemma no_retroactive_creation_witness :
  buckets (carryForward "2023-12" ledger0) !! 1%nat = Some groceries ∧
  (∀ m1 M', earliest (allocations groceries) m1 → str_lt M' m1 →
     allocations groceries !! M' = None ∧
     buckets (carryForward M' ledger0) !! 1%nat = Some groceries) ∧
  buckets (carryForward_v1 "2023-12" ledger0) !! 1%nat
    = Some (with_allocations groceries
              (<["2023-12" := 0%float]> (allocations groceries))) ∧
  (∀ m1 M', earliest (allocations groceries) m1 → str_lt M' m1 →
     buckets (carryForward_v1 M' ledger0) !! 1%nat
       = Some (with_allocations groceries
                 (<[M' := 0%float]> (allocations groceries)))).
Proof.
  exact (no_retroactive_creation ledger0 1 groceries "2023-12"
           eq_refl eq_refl groceries_no_earlier).
Defined.

(** C4 — counterexample.  Groceries has its earliest (and only) allocation in
    2024-01 and nothing in 2023-12.  The first revision of the effect, run
    for 2023-12, creates an allocation of 0 for it in that month, a month
    strictly before its first; the current revision leaves it as it is. *)
Lemma first_revision_creates_retroactively :
  buckets ledger0 !! 1%nat = Some groceries ∧
  earliest (allocations groceries) "2024-01" ∧
  str_lt "2023-12" "2024-01" ∧
  allocations groceries !! "2023-12" = None ∧
  (∃ b', buckets (carryForward_v1 "2023-12" ledger0) !! 1%nat = Some b' ∧
         allocations b' !! "2023-12" = Some 0%float) ∧
  buckets (carryForward "2023-12" ledger0) !! 1%nat = Some groceries.
Proof.
  split_and!.
  - reflexivity.
  - apply groceries_earliest.
  - by vm_compute.
  - by vm_compute.
  - eexists. split; [reflexivity|]. by vm_compute.
  - by vm_compute.
Qed.

(** C5 — counterexample.  The effect maps over every bucket
    ([s.buckets.map]) and never looks at [isIncome].  In the test ledger the income bucket has
    an allocation of 0 in 2024-01, and moving to 2024-02 derives one for it. *)
Lemma income_bucket_is_carried_forward :
  buckets ledger0 !! 0%nat = Some income ∧
  isIncome income = Some true ∧
  allocations income !! "2024-02" = None ∧
  (∃ b', buckets (carryForward "2024-02" ledger0) !! 0%nat = Some b' ∧
         allocations b' !! "2024-02" = Some 0%float) ∧
  (∃ b', buckets (carryForward_v1 "2024-02" ledger0) !! 0%nat = Some b' ∧
         allocations b' !! "2024-02" = Some 0%float).
Proof.
  split_and!; try reflexivity.
  - eexists. split; [reflexivity|]. by vm_compute.
  - eexists. split; [reflexivity|]. by vm_compute.
Qed.


Lemma carryBucket_unchanged_iff M b :
  carryBucket M b = b ↔
  is_Some (allocations b !! M) ∨ ∀ k, is_Some (allocations b !! k) → ¬ str_lt k M.
Proof.
  split.
  - intros Heq. destruct (allocations b !! M) eqn:HM; [by left; eauto|].
    destruct (latest_before_cases (allocations b) M) as [[p Hp]|Hno]; [|by right].
    rewrite (carryBucket_earlier M b p) in Heq by done.
    apply (f_equal (λ x, allocations x !! M)) in Heq. simpl in Heq.
    rewrite lookup_insert_eq, HM in Heq. done.
  - intros [?|?]; [by apply carryBucket_present|by apply carryBucket_no_earlier].
Qed.

(** C5, amended — the effect treats the income bucket like every other
    bucket.  In both revisions the result does not depend on the [isIncome]
    flag, and one rule applies to every bucket, income or not.  With an
    allocation at the active month [M]: no change.  Without one, and with
    some month strictly before [M] that has one: an entry is added at [M]
    whose value is the allocation of the most recent such month [p] (0 when
    [p] is the empty key, which [prev ? ... : 0] takes for no month).
    Without one, and with no earlier month: the current revision makes no
    change, the first revision adds an entry of 0.  These are all the cases.
    So the current revision leaves a bucket unchanged exactly in the first
    and the last case, the first revision in the first case only. *)
Theorem carry_forward_ignores_isIncome (M : string) (b : Bucket) (flag : option bool) :
  carryBucket M (with_isIncome b flag) = with_isIncome (carryBucket M b) flag ∧
  carryBucket_v1 M (with_isIncome b flag) = with_isIncome (carryBucket_v1 M b) flag ∧
  (carryBucket M (with_isIncome b flag) = with_isIncome b flag ↔
     is_Some (allocations b !! M) ∨
     ∀ k, is_Some (allocations b !! k) → ¬ str_lt k M) ∧
  (carryBucket_v1 M (with_isIncome b flag) = with_isIncome b flag ↔
     is_Some (allocations b !! M)) ∧
  (is_Some (allocations b !! M) →
     carryBucket M (with_isIncome b flag) = with_isIncome b flag ∧
     carryBucket_v1 M (with_isIncome b flag) = with_isIncome b flag) ∧
  (∀ p, allocations b !! M = None → latest_before (allocations b) M p →
     ∃ carry,
       carryBucket M (with_isIncome b flag)
         = with_isIncome (with_allocations b (<[M := carry]> (allocations b))) flag ∧
       carryBucket_v1 M (with_isIncome b flag)
         = with_isIncome (with_allocations b (<[M := carry]> (allocations b))) flag ∧
       (p ≠ "" → allocations b !! p = Some carry) ∧
       (p = "" → carry = 0%float)) ∧
  (allocations b !! M = None →
   (∀ k, is_Some (allocations b !! k) → ¬ str_lt k M) →
     carryBucket M (with_isIncome b flag) = with_isIncome b flag ∧
     carryBucket_v1 M (with_isIncome b flag)
       = with_isIncome (with_allocations b (<[M := 0%float]> (allocations b))) flag) ∧
  (is_Some (allocations b !! M) ∨
   (∃ p, latest_before (allocations b) M p) ∨
   (∀ k, is_Some (allocations b !! k) → ¬ str_lt k M)).
Proof.
  assert (carryBucket M (with_isIncome b flag) = with_isIncome (carryBucket M b) flag)
    as Hflag.
  { unfold carryBucket. simpl. repeat (case_match; try done). }
  assert (carryBucket_v1 M (with_isIncome b flag)
          = with_isIncome (carryBucket_v1 M b) flag) as Hflag1.
  { unfold carryBucket_v1. simpl. by case_decide. }
  rewrite Hflag, Hflag1. split_and!; try done.
  - rewrite <-Hflag. by rewrite carryBucket_unchanged_iff.
  - split.
    + intros Heq. destruct (allocations b !! M) eqn:HM; [eauto|].
      apply (f_equal (λ x, allocations x !! M)) in Heq. simpl in Heq.
      unfold carryBucket_v1 in Heq.
      rewrite decide_False in Heq by (rewrite HM; by intros [??]).
      simpl in Heq. by rewrite lookup_insert_eq, HM in Heq.
    + intros HM. by rewrite carryBucket_v1_present.
  - intros HM. by rewrite carryBucket_present, carryBucket_v1_present.
  - intros p HM Hp.
    exists (carry_of (allocations b) (Some p)).
    rewrite (carryBucket_earlier M b p), (carryBucket_v1_earlier M b p) by done.
    split_and!; try done.
    + intros Hne. apply carry_of_key; [apply Hp|done].
    + by intros ->.
  - intros HM Hno.
    by rewrite carryBucket_no_earlier, carryBucket_v1_no_earlier.
  - destruct (allocations b !! M) eqn:HM; [left; eauto|right].
    destruct (latest_before_cases (allocations b) M) as [[p Hp]|Hno]; eauto.
Qed.

(** C6 — Carry-forward idempotence: running the effect for month [M] twice
    in succession gives the same ledger, hence the same bucket allocations, as
    running it once; in both revisions of the effect. *)
Theorem carry_forward_idempotent (M : string) (s : AppState) :
  carryForward M (carryForward M s) = carryForward M s ∧
  carryForward_v1 M (carryForward_v1 M s) = carryForward_v1 M s.
Proof.
  unfold carryForward, carryForward_v1, with_buckets. simpl. split; f_equal.
  - rewrite <-list_fmap_compose. apply list_fmap_ext. intros _ b _. simpl.
    destruct (allocations b !! M) eqn:HM.
    { by rewrite !(carryBucket_present M b) by (rewrite HM; eauto). }
    destruct (latest_before_cases (allocations b) M) as [[p Hp]|Hno].
    + rewrite (carryBucket_earlier M b p) by done.
      apply carryBucket_present. simpl. rewrite lookup_insert_eq. eauto.
    + by rewrite !(carryBucket_no_earlier M b).
  - rewrite <-list_fmap_compose. apply list_fmap_ext. intros _ b _. simpl.
    apply carryBucket_v1_present.
    unfold carryBucket_v1. case_decide; [done|]. simpl.
    rewrite lookup_insert_eq. eauto.
Qed.

(** A bucket whose only allocations are at [m1 < m2]: [m2] is its latest. *)
Lemma only_two_latest b m1 m2 v2 :
  (∀ k, is_Some (allocations b !! k) ↔ k = m1 ∨ k = m2) →
  allocations b !! m2 = Some v2 →
  str_lt m1 m2 →
  latest_is (allocations b) m2 v2.
Proof.
  intros Honly H2 Hlt. split_and!; [done|by eapply str_lt_nonempty|].
  intros k Hk. apply Honly in Hk as [->| ->]; [|done].
  apply str_le_lt_eq. by left.
Qed.

(** C7 — Carry-forward ordering independence.  For a bucket whose explicit
    allocations are only at months [m1 < m2], deriving a month [m3 > m2]
    directly gives it the allocation of [m2]; so does deriving, one after the
    other in ascending order, any months after [m2] that end with [m3] (the
    months [m2+1, ..., m3] in particular).  Both revisions of the effect. *)
Theorem carry_forward_order_independent
    (b : Bucket) (m1 m2 m3 : string) (v2 : number) (months : list string) :
  (∀ k, is_Some (allocations b !! k) ↔ k = m1 ∨ k = m2) →
  allocations b !! m2 = Some v2 →
  str_lt m1 m2 →
  str_lt m2 m3 →
  Sorted str_lt (m2 :: months ++ [m3]) →
  allocations (carryBucket m3 b) !! m3 = Some v2 ∧
  allocations (carryBucket_seq (months ++ [m3]) b) !! m3 = Some v2 ∧
  allocations (carryBucket_v1 m3 b) !! m3 = Some v2 ∧
  allocations (carryBucket_v1_seq (months ++ [m3]) b) !! m3 = Some v2.
Proof.
  intros Honly H2 H12 H23 Hs.
  pose proof (only_two_latest b m1 m2 v2 Honly H2 H12) as Hl.
  assert (last (m2 :: months ++ [m3]) = Some m3) as Hlast
    by by rewrite app_comm_cons, last_snoc.
  split_and!.
  - rewrite (carryBucket_latest m3 b m2 v2) by done. simpl.
    by rewrite lookup_insert_eq.
  - destruct (sequential_latest carryBucket carryBucket_latest _ b m2 v2 Hl Hs)
      as (q & Hq & Hv & _).
    rewrite Hlast in Hq. by simplify_eq.
  - rewrite (carryBucket_v1_latest m3 b m2 v2) by done. simpl.
    by rewrite lookup_insert_eq.
  - destruct (sequential_latest carryBucket_v1 carryBucket_v1_latest _ b m2 v2 Hl Hs)
      as (q & Hq & Hv & _).
    rewrite Hlast in Hq. by simplify_eq.
Qed.

(** ** Month keys ascend with the months, for years of four digits *)

Example monthKey_january : monthKey 2024 0 = "2024-01".
Proof. reflexivity. Qed.

Example monthKey_december : month_at (2024 * 12 + 11) = "2024-12".
Proof. reflexivity. Qed.

Lemma ascending_from_lt fuel : ∀ i j,
  ascending_from fuel i = true →
  (i ≤ j)%N → (j < i + N.of_nat fuel)%N →
  str_lt (month_at j) (month_at (N.succ j)).
Proof.
  induction fuel as [|fuel IH]; intros i j Hasc Hij Hj; [lia|].
  simpl in Hasc. apply andb_prop in Hasc as [Hhere Hrest].
  destruct (decide (j = i)) as [->|Hne]; [done|].
  apply (IH (N.succ i)); [done|lia..].
Qed.

(** From January 1000 to December 9999, checked month by month. *)
Lemma four_digit_years_ascend : ascending_from (N.to_nat 107999) 12000 = true.
Proof. vm_compute. reflexivity. Qed.

Lemma month_at_succ_lt i :
  (12000 ≤ i)%N → (i < 119999)%N → str_lt (month_at i) (month_at (N.succ i)).
Proof.
  intros Hlo Hhi.
  apply (ascending_from_lt _ _ _ four_digit_years_ascend); [done|].
  rewrite N2Nat.id. lia.
Qed.

Lemma Sorted_fmap_seq (f : nat → string) n : ∀ a,
  (∀ k, a ≤ k → S k < a + n → str_lt (f k) (f (S k))) →
  Sorted str_lt (f <$> seq a n).
Proof.
  induction n as [|n IH]; intros a Hstep; simpl; constructor.
  - apply IH. intros k ??. apply Hstep; lia.
  - destruct n as [|n]; simpl; constructor. apply Hstep; lia.
Qed.

Lemma months_after_sorted n i :
  (12000 ≤ i)%N → (i + N.of_nat n ≤ 119999)%N →
  Sorted str_lt (month_at i :: months_after i n).
Proof.
  intros Hlo Hhi.
  assert (month_at i :: months_after i n
          = (λ k, month_at (i + N.of_nat k)) <$> seq 0 (S n)) as ->.
  { unfold months_after. simpl. by rewrite N.add_0_r. }
  apply Sorted_fmap_seq. intros k _ Hk.
  replace (i + N.of_nat (S k))%N with (N.succ (i + N.of_nat k)) by lia.
  apply month_at_succ_lt; lia.
Qed.

Lemma months_after_last i n :
  last (month_at i :: months_after i n) = Some (month_at (i + N.of_nat n)).
Proof.
  unfold months_after. destruct n as [|n].
  { simpl. do 2 f_equal. lia. }
  by rewrite seq_S, fmap_app, list_fmap_singleton, app_comm_cons, last_snoc.
Qed.

(** C7 on the calendar: the months [m2+1, ..., m3] themselves.  [m2] is
    month number [i2] and [m3] lies [n] months later, all within the years
    1000 to 9999. *)
Corollary carry_forward_month_run (b : Bucket) (m1 : string) (i2 : N) (n : nat) (v2 : number) :
  (∀ k, is_Some (allocations b !! k) ↔ k = m1 ∨ k = month_at i2) →
  allocations b !! month_at i2 = Some v2 →
  str_lt m1 (month_at i2) →
  (12000 ≤ i2)%N → (i2 + N.of_nat n ≤ 119999)%N → 1 ≤ n →
  allocations (carryBucket (month_at (i2 + N.of_nat n)) b)
    !! month_at (i2 + N.of_nat n) = Some v2 ∧
  allocations (carryBucket_seq (months_after i2 n) b)
    !! month_at (i2 + N.of_nat n) = Some v2.
Proof.
  intros Honly H2 H12 Hlo Hhi Hn.
  pose proof (only_two_latest b m1 _ v2 Honly H2 H12) as Hl.
  pose proof (months_after_sorted n i2 Hlo Hhi) as Hs.
  destruct (sequential_latest carryBucket carryBucket_latest _ b _ v2 Hl Hs)
    as (q & Hq & Hv & _ & Hmax).
  rewrite months_after_last in Hq. simplify_eq. split; [|done].
  assert (str_lt (month_at i2) (month_at (i2 + N.of_nat n))) as Hlt.
  { apply Sorted_StronglySorted in Hs; [|intros ???; apply str_lt_trans].
    apply StronglySorted_cons in Hs as [Hall _].
    rewrite Forall_forall in Hall. apply Hall.
    apply list_elem_of_fmap. exists n. split; [done|]. apply elem_of_seq. lia. }
  rewrite (carryBucket_latest _ b _ v2 Hl Hlt). simpl.
  by rewrite lookup_insert_eq.
Qed.

Lemma rent_only_two k :
  is_Some (allocations rent !! k) ↔ k = "2023-11" ∨ k = "2023-12".
Proof.
  simpl. split.
  - intros [v Hv]. apply lookup_insert_Some in Hv as [[<- _]|[_ Hv]]; [by left|].
    apply lookup_singleton_Some in Hv as [<- _]. by right.
  - intros [->| ->]; eexists; by vm_compute.
Qed.

Lemma rent_months_ascending :
  Sorted str_lt ("2023-12" :: ["2024-01"; "2024-02"] ++ ["2024-03"]).
Proof. repeat constructor. Qed.

Lemma carry_forward_order_independent_witness :
  allocations (carryBucket "2024-03" rent) !! "2024-03" = Some 1600%float ∧
  allocations (carryBucket_seq (["2024-01"; "2024-02"] ++ ["2024-03"]) rent)
    !! "2024-03" = Some 1600%float ∧
  allocations (carryBucket_v1 "2024-03" rent) !! "2024-03" = Some 1600%float ∧
  allocations (carryBucket_v1_seq (["2024-01"; "2024-02"] ++ ["2024-03"]) rent)
    !! "2024-03" = Some 1600%float.
Proof.
  exact (carry_forward_order_independent rent "2023-11" "2023-12" "2024-03"
           1600%float ["2024-01"; "2024-02"]
           rent_only_two eq_refl eq_refl eq_refl rent_months_ascending).
Defined.

Lemma bucket_frame_refl M b : bucket_frame M b b.
Proof. by split_and!. Qed.

Lemma bucket_frame_insert M b v :
  allocations b !! M = None →
  bucket_frame M b (with_allocations b (<[M := v]> (allocations b))).
Proof.
  intros HM. split_and!; try done; simpl.
  - intros k w Hk. rewrite lookup_insert_ne; [done|]. congruence.
  - intros k Hk. by rewrite lookup_insert_ne.
Qed.

(** C10 — Frame property.  The effect keeps the transactions and the version
    of the ledger, keeps the buckets in number and order, keeps every field of
    a bucket other than [allocations], and keeps every allocation entry that
    was there, at [M] or at any other month; the only thing that can differ is
    an entry at [M] in a bucket that had none.  Both revisions. *)
Theorem carry_forward_frame (M : string) (s : AppState) :
  state_frame M s (carryForward M s) ∧ state_frame M s (carryForward_v1 M s).
Proof.
  assert (∀ f, (∀ b, bucket_frame M b (f b)) →
            Forall2 (bucket_frame M) (buckets s) (map f (buckets s))) as Hall.
  { intros f Hf. induction (buckets s); constructor; auto. }
  split; (split_and!; [done..|]); apply Hall; intros b.
  - unfold carryBucket. repeat case_match; try apply bucket_frame_refl.
    apply bucket_frame_insert. by apply eq_None_not_Some.
  - unfold carryBucket_v1. case_decide; [apply bucket_frame_refl|].
    apply bucket_frame_insert. by apply eq_None_not_Some.
Qed.

(** ** Running the program on the small platform *)

Section toy_runs.
#[local] Existing Instance Toy.platform.

Example toy_roundtrip :
  (bind (encryptJSON "correct" Toy.doc) (decryptJSON "correct") Toy.world0).1
  = Return Toy.doc.
Proof. vm_compute. reflexivity. Qed.

Example toy_wrong_passphrase :
  (bind (encryptJSON "correct" Toy.doc) (decryptJSON "wrong") Toy.world0).1
  = Throw OperationError.
Proof. vm_compute. reflexivity. Qed.

End toy_runs.

(** ** The envelope codec *)

Ltac unfold_monad :=
  unfold mbind, M_bind, bind, mret, M_ret, ret, lift, throw, try_catch,
         emit, get_world, set_localStorage, set_backend in *.

Section codec.
Context `{Platform}.

Lemma charCodes_app a b : charCodes (a +:+ b) = charCodes a ++ charCodes b.
Proof. induction a as [|c a IH]; simpl; [done|]. by rewrite IH. Qed.

Lemma charCodes_fromCharCodes bytes acc :
  charCodes (foldl (λ bin b, bin +:+ String_fromCharCode b) acc bytes)
  = charCodes acc ++ bytes.
Proof.
  revert acc. induction bytes as [|b bytes IH]; intros acc; simpl.
  - by rewrite app_nil_r.
  - rewrite IH, charCodes_app. simpl.
    rewrite Ascii.byte_of_ascii_of_byte. by rewrite <-app_assoc.
Qed.

Lemma get_field_v s i c : get_field "v" (envelope s i c) = Some (JNumber 1).
Proof. reflexivity. Qed.
Lemma get_field_salt s i c : get_field "salt" (envelope s i c) = Some (JString s).
Proof. reflexivity. Qed.
Lemma get_field_iv s i c : get_field "iv" (envelope s i c) = Some (JString i).
Proof. reflexivity. Qed.
Lemma get_field_cipher s i c : get_field "cipher" (envelope s i c) = Some (JString c).
Proof. reflexivity. Qed.

(** A value that is not an object has no version field. *)
Lemma falsy_has_no_version parsed :
  truthy parsed = false → get_field "v" parsed = None.
Proof. by destruct parsed. Qed.

(** [parsed.v !== 1] holds when there is no [v] and when [v] is not a
    number. *)
Lemma version_missing_or_not_a_number (x : option json) :
  x = None ∨ (∃ j, x = Some j ∧ ∀ n, j ≠ JNumber n) →
  strict_ne_number x 1 = true.
Proof.
  intros [->|(j & -> & Hj)]; [done|].
  destruct j; try done. by destruct (Hj n).
Qed.

(** C8 — Unsupported version.  Whenever the payload parses to a value whose
    [v] is not the number 1 ([parsed.v !== 1]: another number, a value of
    another type, or no [v] at all, as on [null] and on every non-object),
    [decryptJSON] throws [Error("Unsupported payload")] and leaves the world
    as it found it: no salt is decoded, no key is imported or derived, nothing
    is decrypted. *)
Theorem decrypt_rejects_unsupported_version
    (passphrase payload : string) (parsed : json) (w : World) :
  JSON_parse payload = Return parsed →
  strict_ne_number (get_field "v" parsed) 1 = true →
  decryptJSON passphrase payload w = (Throw (Error "Unsupported payload"), w).
Proof.
  intros Hparse Hv. unfold decryptJSON. unfold_monad.
  rewrite Hparse, Hv, orb_true_r. done.
Qed.


(** [encryptJSON] never throws; it draws 16 then 12 bytes. *)
Lemma encryptJSON_returns passphrase obj w :
  (encryptJSON passphrase obj w).1 =
  Return (sealed passphrase obj
            (entropy w <$> seq (drawn w) 16)
            (entropy w <$> seq (drawn w + 16) 12)).
Proof. reflexivity. Qed.

Hypothesis JSON_roundtrip_envelope : ∀ s i c,
  JSON_parse (JSON_stringify (envelope s i c)) = Return (envelope s i c).
Hypothesis atob_btoa : ∀ bin, atob (Some (JString (btoa bin))) = Return bin.
Hypothesis TextDecoder_TextEncoder : ∀ j,
  TextDecoder_decode (TextEncoder_encode (JSON_stringify j)) = JSON_stringify j.
Hypothesis decrypt_encrypt : ∀ iv key plaintext,
  subtle_decrypt (mkAesGcmParams "AES-GCM" iv) key
    (subtle_encrypt (mkAesGcmParams "AES-GCM" iv) key plaintext)
  = Return plaintext.

Lemma b64_roundtrip bytes w :
  b64DecodeToBytes (Some (JString (b64Encode bytes))) w = (Return bytes, w).
Proof using atob_btoa.
  unfold b64DecodeToBytes, b64Encode. unfold_monad.
  by rewrite atob_btoa, charCodes_fromCharCodes.
Qed.

Lemma decryptJSON_sealed passphrase obj salt iv w :
  (decryptJSON passphrase (sealed passphrase obj salt iv) w).1
  = JSON_parse (JSON_stringify obj).
Proof using All.
  unfold decryptJSON, sealed.
  unfold mbind at 1, M_bind at 1, bind at 1, lift at 1.
  rewrite JSON_roundtrip_envelope.
  rewrite get_field_v, get_field_salt, get_field_iv, get_field_cipher.
  simpl (negb _ || _).
  unfold mbind, M_bind, bind. rewrite !b64_roundtrip.
  unfold deriveKey. unfold_monad. simpl.
  by rewrite decrypt_encrypt, TextDecoder_TextEncoder.
Qed.

(** C1 — Round-trip.  For every passphrase and every document that
    [JSON.parse(JSON.stringify(D))] gives back, [encryptJSON] returns a
    payload, whatever bytes it draws for the salt and the IV, and
    [decryptJSON] with the same passphrase returns [D] from that payload, in
    whatever world it then runs (the same session or a later one).  The
    browser primitives are taken with their contracts: JSON round-trips the
    envelope object, [atob] inverts [btoa], UTF-8 decoding inverts encoding on
    the text [JSON.stringify] produces, AES-GCM decryption inverts encryption
    under the same key and IV. *)
Theorem encrypt_decrypt_roundtrip (passphrase : string) (D : json) (w w' : World) :
  JSON_parse (JSON_stringify D) = Return D →
  ∃ payload,
    (encryptJSON passphrase D w).1 = Return payload ∧
    (decryptJSON passphrase payload w').1 = Return D.
Proof using All.
  intros HD. eexists. split; [apply encryptJSON_returns|].
  by rewrite decryptJSON_sealed.
Qed.
End codec.

(** ** The small platform meets the laws *)

Lemma toy_dec_enc s rest : Toy.dec (Toy.enc s +:+ rest) = Some (s, rest).
Proof. induction s as [|a s IH]; simpl; [done|]. by rewrite IH. Qed.

Lemma toy_parse_object n rest :
  Toy.parse_value (S n) (String "{" rest) =
  match Toy.parse_fields n rest with
  | Some (fs, rest') => Some (JObject fs, rest')
  | None => None
  end.
Proof. reflexivity. Qed.

Lemma toy_parse_one n rest :
  Toy.parse_value (S n) (String "1" rest) = Some (JNumber 1, rest).
Proof. reflexivity. Qed.

Lemma toy_parse_string n s rest :
  Toy.parse_value (S n) (String "s" (Toy.enc s +:+ rest)) = Some (JString s, rest).
Proof.
  change (match Toy.dec (Toy.enc s +:+ rest) with
          | Some (str, rest') => Some (JString str, rest')
          | None => None
          end = Some (JString s, rest)).
  by rewrite toy_dec_enc.
Qed.

Lemma toy_parse_fields_end n rest :
  Toy.parse_fields (S n) (String "}" rest) = Some ([], rest).
Proof. reflexivity. Qed.


Lemma toy_parse_fields_field n k rest :
  Toy.parse_fields (S n) (Toy.enc k +:+ rest) = toy_field_step n k rest.
Proof.
  pose proof (toy_dec_enc k rest) as Hdec.
  destruct k as [|a k].
  - change (Toy.dec (String "." rest) = Some ("", rest)) in Hdec.
    change (match Toy.dec (String "." rest) with
            | Some (k, r0) => toy_field_step n k r0
            | None => None
            end = toy_field_step n "" rest).
    by rewrite Hdec.
  - change (Toy.dec (String "+" (String a (Toy.enc k +:+ rest)))
            = Some (String a k, rest)) in Hdec.
    change (match Toy.dec (String "+" (String a (Toy.enc k +:+ rest))) with
            | Some (k, r0) => toy_field_step n k r0
            | None => None
            end = toy_field_step n (String a k) rest).
    by rewrite Hdec.
Qed.

Lemma toy_ser_envelope s i c :
  Toy.ser (envelope s i c) =
  String "{" (Toy.enc "v" +:+ String "1" (Toy.enc "salt" +:+ String "s" (Toy.enc s +:+
    (Toy.enc "iv" +:+ String "s" (Toy.enc i +:+
    (Toy.enc "cipher" +:+ String "s" (Toy.enc c +:+ "}"))))))).
Proof. reflexivity. Qed.

Lemma toy_JSON_roundtrip_envelope s i c :
  Toy.parse (Toy.ser (envelope s i c)) = Return (envelope s i c).
Proof.
  unfold Toy.parse. rewrite toy_ser_envelope.
  cbn [Nat.add].
  rewrite toy_parse_object.
  rewrite toy_parse_fields_field. unfold toy_field_step. rewrite toy_parse_one.
  rewrite toy_parse_fields_field. unfold toy_field_step. rewrite toy_parse_string.
  rewrite toy_parse_fields_field. unfold toy_field_step. rewrite toy_parse_string.
  rewrite toy_parse_fields_field. unfold toy_field_step. rewrite toy_parse_string.
  by rewrite toy_parse_fields_end.
Qed.

Lemma toy_atob_btoa bin : Toy.decode64 (Some (JString bin)) = Return bin.
Proof. reflexivity. Qed.

Lemma toy_strip_prefix pre rest : Toy.strip_prefix pre (pre ++ rest) = Some rest.
Proof.
  induction pre as [|p pre IH]; simpl; [done|].
  by rewrite (Byte.byte_dec_lb (x:=p) eq_refl).
Qed.

Lemma toy_decrypt_encrypt params key plaintext :
  Toy.decrypt params key (Toy.encrypt params key plaintext) = Return plaintext.
Proof.
  unfold Toy.decrypt, Toy.encrypt.
  by rewrite (assoc_L (++)), toy_strip_prefix.
Qed.


Lemma encrypt_decrypt_roundtrip_witness :
  ∃ payload,
    (@encryptJSON Toy.platform "correct" Toy.doc Toy.world0).1 = Return payload ∧
    (@decryptJSON Toy.platform "correct" payload Toy.world0).1 = Return Toy.doc.
Proof.
  exact (@encrypt_decrypt_roundtrip Toy.platform
           toy_JSON_roundtrip_envelope toy_atob_btoa
           (λ j, String.string_of_list_byte_of_string (Toy.ser j))
           (λ iv, toy_decrypt_encrypt (mkAesGcmParams "AES-GCM" iv))
           "correct" Toy.doc Toy.world0 Toy.world0 eq_refl).
Defined.

(** A payload whose version is 2 is refused before anything else happens. *)
Lemma decrypt_rejects_unsupported_version_witness :
  @decryptJSON Toy.platform "correct"
    (Toy.ser (JObject [("v", JNumber 2); ("salt", JString "");
                       ("iv", JString ""); ("cipher", JString "")]))
    Toy.world0
  = (Throw (Error "Unsupported payload"), Toy.world0).
Proof.
  exact (@decrypt_rejects_unsupported_version Toy.platform "correct"
           (Toy.ser (JObject [("v", JNumber 2); ("salt", JString "");
                              ("iv", JString ""); ("cipher", JString "")]))
           (JObject [("v", JNumber 2); ("salt", JString "");
                     ("iv", JString ""); ("cipher", JString "")])
           Toy.world0 eq_refl eq_refl).
Defined.

(** ** The two stores and the orchestration *)


Section storage.
Context `{Platform}.

Lemma loadLocal_returns w :
  (loadLocal w).1 = Return (local_snapshot (localStorage w)) ∧
  localStorage (loadLocal w).2 = localStorage w.
Proof.
  unfold loadLocal, hasLocalStorage, localStorage_getItem, local_snapshot.
  unfold_monad. destruct w as [[st|] url key be ent dr lg]; simpl; [|done].
  destruct (items st !! LOCAL_STORAGE_KEY) as [raw|]; simpl; [|done].
  case_bool_decide; simpl; [|done].
  by destruct (JSON_parse raw).
Qed.

(** [saveLocal] never throws and touches nothing but the local slot (and
    the log). *)
Lemma saveLocal_runs state w :
  (saveLocal state w).1 = Return tt ∧
  localStorage (saveLocal state w).2 = local_after_save state (localStorage w) ∧
  SUPABASE_URL (saveLocal state w).2 = SUPABASE_URL w ∧
  SUPABASE_ANON_KEY (saveLocal state w).2 = SUPABASE_ANON_KEY w ∧
  backend (saveLocal state w).2 = backend w.
Proof.
  unfold saveLocal, hasLocalStorage, localStorage_setItem, local_after_save.
  unfold_monad. destruct w as [[[its full]|] url key be ent dr lg]; simpl; [|done].
  by destruct full.
Qed.

(** The client depends on the two [window] settings only. *)
Lemma getSupabase_runs w w' :
  SUPABASE_URL w' = SUPABASE_URL w →
  SUPABASE_ANON_KEY w' = SUPABASE_ANON_KEY w →
  (getSupabase w').1 = (getSupabase w).1 ∧ (getSupabase w').2 = w'.
Proof.
  intros Hurl Hkey. unfold getSupabase. unfold_monad. rewrite Hurl, Hkey.
  destruct (negb (truthy_string (SUPABASE_URL w)) || _); [done|].
  by destruct (createClient_throws _ _).
Qed.

Lemma cloudAvailable_runs w :
  cloudAvailable w =
  (match (getSupabase w).1 with
   | Return sb => Return (bool_decide (is_Some sb))
   | Throw e => Throw e
   end, w).
Proof.
  unfold cloudAvailable, getSupabase. unfold_monad.
  destruct (negb (truthy_string (SUPABASE_URL w)) || _); [done|].
  by destruct (createClient_throws _ _).
Qed.

Lemma cloudAvailable_client w :
  (cloudAvailable w).1 = Return true → ∃ sb, (getSupabase w).1 = Return (Some sb).
Proof.
  rewrite cloudAvailable_runs. simpl.
  destruct (getSupabase w).1 as [[sb|]|]; try done. eauto.
Qed.

Lemma encryptJSON_frame passphrase obj w :
  localStorage (encryptJSON passphrase obj w).2 = localStorage w ∧
  SUPABASE_URL (encryptJSON passphrase obj w).2 = SUPABASE_URL w ∧
  SUPABASE_ANON_KEY (encryptJSON passphrase obj w).2 = SUPABASE_ANON_KEY w ∧
  backend (encryptJSON passphrase obj w).2 = backend w.
Proof. done. Qed.


(** What [decryptJSON] returns does not depend on the world it runs in, and
    it leaves the local slot alone. *)
Lemma decryptJSON_runs passphrase payload w w' :
  (decryptJSON passphrase payload w).1 = (decryptJSON passphrase payload w').1 ∧
  localStorage (decryptJSON passphrase payload w).2 = localStorage w.
Proof.
  unfold decryptJSON, b64DecodeToBytes, deriveKey. unfold_monad.
  destruct (JSON_parse payload) as [parsed|]; [|done].
  destruct (negb (truthy parsed) || _); [done|].
  destruct (atob (get_field "salt" parsed)); [|done].
  destruct (atob (get_field "iv" parsed)); [|done].
  destruct (atob (get_field "cipher" parsed)); [|done]. simpl.
  destruct (subtle_decrypt _ _ _); [|done]. simpl.
  by destruct (JSON_parse _).
Qed.


(** C2 — what the code does instead.  With both credentials present, the
    cloud available and a row fetched for the household, an exception thrown
    by [decryptJSON] on that row (wrong passphrase, tampered or malformed
    payload, unsupported version) is thrown by [loadState] itself: neither
    [loadFromCloud] nor [loadState] catches it, there is no fall-back to
    [loadLocal], and the local slot is left as it was. *)
Theorem loadState_propagates_decryption_failure
    (householdId passphrase : option string) (w : World) (payload : json) (e : exn) :
  truthy_string householdId = true →
  truthy_string passphrase = true →
  (cloudAvailable w).1 = Return true →
  read_error (backend w) = None →
  states (backend w) !! default "" householdId = Some payload →
  (decryptJSON (default "" passphrase) (JSON_stringify payload) w).1 = Throw e →
  ∃ w', loadState householdId passphrase w = (Throw e, w') ∧
        localStorage w' = localStorage w.
Proof.
  intros Hhh Hpp Hcloud Hread Hrow Hdec. unfold loadState.
  rewrite Hhh, Hpp. simpl.
  apply cloudAvailable_client in Hcloud as [sb Hsb].
  unfold mbind at 1, M_bind at 1, bind at 1. rewrite cloudAvailable_runs, Hsb.
  simpl. unfold mbind at 1, M_bind at 1, bind at 1.
  unfold loadFromCloud. unfold mbind at 1, M_bind at 1, bind at 1.
  destruct (getSupabase_runs w w eq_refl eq_refl) as [_ Hw].
  destruct (getSupabase w) as [r w0]. simpl in Hsb, Hw. subst r w0.
  unfold select_payload. unfold_monad. simpl. rewrite Hread, Hrow. simpl.
  match goal with
  | |- context [decryptJSON ?p ?s ?w1] =>
      destruct (decryptJSON_runs p s w1 w) as [Hres Hls];
      destruct (decryptJSON p s w1) as [r w2]
  end.
  simpl in *. rewrite Hdec in Hres. subst r. by exists w2.
Qed.

Hypothesis JSON_roundtrip_envelope : ∀ s i c,
  JSON_parse (JSON_stringify (envelope s i c)) = Return (envelope s i c).


Hypothesis JSON_stringify_nonempty : ∀ j, JSON_stringify j ≠ "".

End storage.

(** ** The orchestration on the small platform *)




(** [Toy.world_synced] is a browser that has saved the ledger under the
    passphrase "correct": the row is in the backend and the ledger in the
    local slot.  Loading with the right passphrase returns the ledger, and so
    does [loadLocal]; loading with a wrong passphrase throws. *)
Example loadState_on_synced_world :
  (@loadState Toy.platform (Some "household") (Some "correct") Toy.world_synced).1
    = Return Toy.doc ∧
  (@loadLocal Toy.platform Toy.world_synced).1 = Return Toy.doc ∧
  (@loadState Toy.platform (Some "household") (Some "wrong") Toy.world_synced).1
    = Throw OperationError.
Proof. split_and!; vm_compute; reflexivity. Qed.

Lemma loadState_propagates_decryption_failure_witness :
  ∃ w', @loadState Toy.platform (Some "household") (Some "wrong") Toy.world_synced
          = (Throw OperationError, w') ∧
        localStorage w' = localStorage Toy.world_synced.
Proof.
  eapply (@loadState_propagates_decryption_failure Toy.platform
            (Some "household") (Some "wrong") Toy.world_synced);
    vm_compute; reflexivity.
Defined.

(** * Further properties of the ledger code *)

(** ** The derived amount *)

(** X1 — The carry-forward rule.  A bucket with no entry at the active month
    [M] whose most recent earlier month is [p] (a non-empty key) gets, at [M],
    the allocation it has at [p]; every other entry stays.  Both revisions. *)
Theorem carry_forward_takes_latest
    (M : string) (b : Bucket) (p : string) (v : number) :
  allocations b !! M = None →
  latest_before (allocations b) M p →
  p ≠ "" →
  allocations b !! p = Some v →
  allocations (carryBucket M b) = <[M := v]> (allocations b) ∧
  allocations (carryBucket_v1 M b) = <[M := v]> (allocations b).
Proof.
  intros HM Hp Hne Hv.
  rewrite (carryBucket_earlier M b p), (carryBucket_v1_earlier M b p) by done.
  simpl. pose proof (carry_of_key (allocations b) p) as Hc.
  rewrite Hv in Hc. specialize (Hc (mk_is_Some _ _ eq_refl) Hne).
  by simplify_eq.
Qed.

Lemma groceries_latest_before_march :
  latest_before (allocations groceries) "2024-03" "2024-01".
Proof.
  split_and!; [by eexists|done|].
  intros k [w Hk] _. simpl in Hk.
  apply lookup_singleton_Some in Hk as [<- _]. done.
Qed.

Lemma carry_forward_takes_latest_witness :
  allocations (carryBucket "2024-03" groceries)
    = <["2024-03" := 600%float]> (allocations groceries) ∧
  allocations (carryBucket_v1 "2024-03" groceries)
    = <["2024-03" := 600%float]> (allocations groceries).
Proof.
  apply (carry_forward_takes_latest "2024-03" groceries "2024-01" 600%float);
    [done|apply groceries_latest_before_march|done|done].
Defined.

(** X2 — Where the two revisions differ.  They return the same bucket exactly
    when the active month already has an entry or some earlier month has one.
    In the one remaining case, a month with nothing at or before it, the
    current revision returns the bucket as it is and the first revision
    writes an allocation of 0. *)
Theorem revisions_differ_only_before_first (M : string) (b : Bucket) :
  (carryBucket_v1 M b = carryBucket M b ↔
     is_Some (allocations b !! M) ∨
     ∃ k, is_Some (allocations b !! k) ∧ str_lt k M) ∧
  (allocations b !! M = None →
   (∀ k, is_Some (allocations b !! k) → ¬ str_lt k M) →
   carryBucket M b = b ∧
   carryBucket_v1 M b = with_allocations b (<[M := 0%float]> (allocations b))).
Proof.
  split.
  - split; [|apply carryBucket_v1_agree].
    intros Heq. destruct (allocations b !! M) eqn:HM; [left; eauto|].
    destruct (latest_before_cases (allocations b) M) as [[p (? & ? & _)]|Hno].
    { right. eauto. }
    rewrite carryBucket_no_earlier, carryBucket_v1_no_earlier in Heq by done.
    apply (f_equal (λ x, allocations x !! M)) in Heq. simpl in Heq.
    by rewrite lookup_insert_eq, HM in Heq.
  - intros HM Hno. split.
    + by apply carryBucket_no_earlier.
    + by apply carryBucket_v1_no_earlier.
Qed.

(** ** Month keys *)

(** X3 — Month keys are chronological.  From January 1000 to December 9999
    the string order the code sorts and compares the keys by is the order of
    the months they name. *)
Theorem month_keys_are_chronological (i j : N) :
  (12000 ≤ i)%N → (i < j)%N → (j ≤ 119999)%N →
  str_lt (month_at i) (month_at j).
Proof.
  intros Hlo Hij Hhi.
  assert (∃ n, j = (i + N.of_nat (S n))%N) as [n ->].
  { exists (N.to_nat (j - i) - 1). lia. }
  clear Hij. induction n as [|n IH].
  - replace (i + N.of_nat 1)%N with (N.succ i) by lia.
    apply month_at_succ_lt; lia.
  - eapply str_lt_trans; [apply IH; lia|].
    replace (i + N.of_nat (S (S n)))%N with (N.succ (i + N.of_nat (S n))) by lia.
    apply month_at_succ_lt; lia.
Qed.

Lemma month_keys_are_chronological_witness :
  str_lt (month_at (2023 * 12 + 11)) (month_at (2024 * 12 + 0)).
Proof.
  apply month_keys_are_chronological; lia.
Defined.

Lemma seven_chars_from_length fuel : ∀ i j,
  seven_chars_from fuel i = true →
  (i ≤ j)%N → (j < i + N.of_nat fuel)%N →
  String.length (month_at j) = 7.
Proof.
  induction fuel as [|fuel IH]; intros i j Hall Hij Hj; [lia|].
  simpl in Hall. apply andb_prop in Hall as [Hhere Hrest].
  destruct (decide (j = i)) as [->|Hne]; [by apply Nat.eqb_eq|].
  apply (IH (N.succ i)); [done|lia..].
Qed.

Lemma four_digit_years_seven_chars : seven_chars_from (N.to_nat 108000) 12000 = true.
Proof. vm_compute. reflexivity. Qed.

Lemma substring_prefix a rest : String.substring 0 (String.length a) (a +:+ rest) = a.
Proof.
  induction a as [|c a IH]; simpl.
  - by destruct rest.
  - by rewrite IH.
Qed.

(** X4 — A date falls under the key of its month.  For a year of four digits,
    [monthKeyFrom] of a date string that starts with the key [monthKey] gives
    to its month (the key followed by ["-DD"] or by anything else) is that
    key: the transaction is listed in the month it is dated in. *)
Theorem monthKeyFrom_of_month_key (i : N) (rest : string) :
  (12000 ≤ i)%N → (i ≤ 119999)%N →
  monthKeyFrom (month_at i +:+ rest) = month_at i.
Proof.
  intros Hlo Hhi. unfold monthKeyFrom.
  rewrite <-(seven_chars_from_length _ _ i four_digit_years_seven_chars) at 1;
    [apply substring_prefix|done|].
  rewrite N2Nat.id. lia.
Qed.

Lemma monthKeyFrom_of_month_key_witness :
  monthKeyFrom (month_at (2024 * 12 + 2) +:+ "-15") = month_at (2024 * 12 + 2).
Proof.
  apply monthKeyFrom_of_month_key; lia.
Defined.

Example monthKeyFrom_short : monthKeyFrom "2024" = "2024".
Proof. reflexivity. Qed.

(** ** Allocations: setting, adding, hiding *)

Lemma carryBucket_cases M b :
  carryBucket M b = b ∨
  ∃ c, allocations b !! M = None ∧
       carryBucket M b = with_allocations b (<[M := c]> (allocations b)).
Proof.
  destruct (allocations b !! M) eqn:HM.
  { left. apply carryBucket_present. rewrite HM. eauto. }
  destruct (latest_before_cases (allocations b) M) as [[p Hp]|Hno].
  - right. eexists. split; [done|]. by apply carryBucket_earlier.
  - left. by apply carryBucket_no_earlier.
Qed.

Lemma carryBucket_v1_cases M b :
  carryBucket_v1 M b = b ∨
  ∃ c, allocations b !! M = None ∧
       carryBucket_v1 M b = with_allocations b (<[M := c]> (allocations b)).
Proof.
  unfold carryBucket_v1. case_decide as HM; [by left|].
  right. eexists. split; [by apply eq_None_not_Some|done].
Qed.

Lemma with_allocations_id b : with_allocations b (allocations b) = b.
Proof. by destruct b. Qed.

(** Any step that returns the bucket or adds an entry at [M] to it commutes
    with writing [v] at [M]. *)
Lemma set_after_step_commute (step : Bucket → Bucket) M id v b :
  (step b = b ∨ ∃ c, allocations b !! M = None ∧
                     step b = with_allocations b (<[M := c]> (allocations b))) →
  (∀ b0, is_Some (allocations b0 !! M) → step b0 = b0) →
  step (if decide (bucket_id b = id)
        then with_allocations b (<[M := v]> (allocations b)) else b)
  = (if decide (bucket_id (step b) = id)
     then with_allocations (step b) (<[M := v]> (allocations (step b)))
     else step b).
Proof.
  intros Hcases Hpresent.
  assert (bucket_id (step b) = bucket_id b) as Hid.
  { by destruct Hcases as [->|(c & _ & ->)]. }
  rewrite Hid. case_decide; [|done].
  rewrite Hpresent by (simpl; rewrite lookup_insert_eq; eauto).
  destruct Hcases as [->|(c & _ & ->)]; [done|].
  unfold with_allocations. simpl. by rewrite insert_insert_eq.
Qed.

(** X5 — An explicit allocation and the carry-forward commute.  Setting the
    active month's allocation of a bucket and then running the effect for that
    month gives the same ledger as running the effect first and setting the
    allocation afterwards: the value the user typed is what stays, a derived
    one never replaces it.  Both revisions. *)
Theorem updateAlloc_carryForward_commute
    (M id : string) (v : number) (s : AppState) :
  carryForward M (updateAlloc M id v s) = updateAlloc M id v (carryForward M s) ∧
  carryForward_v1 M (updateAlloc M id v s) = updateAlloc M id v (carryForward_v1 M s).
Proof.
  unfold carryForward, carryForward_v1, updateAlloc, with_buckets. simpl.
  split; f_equal; rewrite !map_map; apply map_ext; intros b.
  - apply set_after_step_commute;
      [apply carryBucket_cases|apply carryBucket_present].
  - apply set_after_step_commute;
      [apply carryBucket_v1_cases|apply carryBucket_v1_present].
Qed.

(** ** Which buckets a month shows *)

Lemma carryBucket_has_entry_iff M b :
  is_Some (allocations (carryBucket M b) !! M) ↔
  ∃ k, is_Some (allocations b !! k) ∧ str_le k M.
Proof.
  destruct (allocations b !! M) eqn:HM.
  { rewrite carryBucket_present by (rewrite HM; eauto). rewrite HM. split; [|eauto].
    intros _. exists M. rewrite HM. split; [eauto|done]. }
  destruct (latest_before_cases (allocations b) M) as [[p Hp]|Hno].
  - rewrite (carryBucket_earlier M b p) by done. simpl. rewrite lookup_insert_eq.
    split; [|eauto]. intros _. destruct Hp as (Hk & Hlt & _).
    exists p. split; [done|]. apply str_le_lt_eq. by left.
  - rewrite carryBucket_no_earlier by done. rewrite HM. split.
    + by intros [? ?].
    + intros (k & Hk & Hle). apply str_le_lt_eq in Hle as [Hlt| ->].
      * by destruct (Hno k).
      * rewrite HM in Hk. by destruct Hk.
Qed.

Lemma carryBucket_keeps_flags M b :
  isIncome (carryBucket M b) = isIncome b ∧
  deletedMonths (carryBucket M b) = deletedMonths b.
Proof. by destruct (carryBucket_cases M b) as [->|(c & _ & ->)]. Qed.

(** X6 — Which buckets the active month shows once the effect has run.  A
    bucket is in [nonIncomeBuckets] for [M] after the carry-forward for [M]
    exactly when it is not the income bucket, is not marked deleted for [M],
    and has an allocation at [M] or at some earlier month.  In the first
    revision the effect leaves every bucket with an entry at [M]. *)
Theorem shown_after_carry_forward (M : string) (b : Bucket) :
  (shown_in M (carryBucket M b) = true ↔
     truthy_flag (isIncome b) = false ∧ deleted_in M b = false ∧
     ∃ k, is_Some (allocations b !! k) ∧ str_le k M) ∧
  is_Some (allocations (carryBucket_v1 M b) !! M).
Proof.
  split.
  - unfold shown_in, deleted_in.
    destruct (carryBucket_keeps_flags M b) as [-> ->].
    rewrite <-carryBucket_has_entry_iff.
    destruct (truthy_flag (isIncome b)); [by split; [|intros [? _]]|].
    destruct (match deletedMonths b with Some d => _ | None => _ end);
      [by split; [|intros (_ & ? & _)]|].
    rewrite bool_decide_eq_true. by split; [|intros (_ & _ & ?)].
  - unfold carryBucket_v1. case_decide; [done|]. simpl.
    rewrite lookup_insert_eq. eauto.
Qed.



Lemma deleted_in_after_delete M M' b :
  deleted_in M' (with_deletedMonths b
                   (Some (<[M := true]> (default ∅ (deletedMonths b)))))
  = if decide (M' = M) then true else deleted_in M' b.
Proof.
  unfold deleted_in. simpl. case_decide as Heq.
  - subst. by rewrite lookup_insert_eq.
  - rewrite lookup_insert_ne by done. destruct (deletedMonths b); [done|].
    simpl. by rewrite lookup_empty.
Qed.

Lemma shown_in_after_delete M M' b :
  shown_in M' (with_deletedMonths b
                 (Some (<[M := true]> (default ∅ (deletedMonths b)))))
  = if decide (M' = M) then false else shown_in M' b.
Proof.
  unfold shown_in. rewrite deleted_in_after_delete. simpl.
  case_decide; [|done]. by destruct (truthy_flag (isIncome b)).
Qed.

(** X8 — Deleting a bucket for one month hides it in that month only.  After
    [deleteBucketForMonth] for month [M] and bucket [id], the buckets shown
    in [M] are those shown before whose id is not [id]; in every other month
    a bucket is shown exactly if it was; every bucket keeps its allocations,
    so the carry-forward goes on as before; the transactions are untouched. *)
Theorem deleteBucketForMonth_hides_one_month (M id : string) (s : AppState) :
  nonIncomeBuckets M (deleteBucketForMonth M id s)
    = filter (λ b, bucket_id b ≠ id) (nonIncomeBuckets M s) ∧
  (∀ M', M' ≠ M →
     Forall2 (λ b b', shown_in M' b' = shown_in M' b)
       (buckets s) (buckets (deleteBucketForMonth M id s))) ∧
  allocations <$> buckets (deleteBucketForMonth M id s) = allocations <$> buckets s ∧
  txns (deleteBucketForMonth M id s) = txns s.
Proof.
  unfold nonIncomeBuckets, deleteBucketForMonth. cbn [buckets with_buckets txns].
  split_and!; [| | |done].
  - induction (buckets s) as [|b l IH]; [done|]. cbn [map].
    rewrite !filter_cons, IH. destruct (decide (bucket_id b = id)) as [Hid|Hid].
    + rewrite shown_in_after_delete, (decide_True (P := M = M)) by done.
      rewrite (decide_False (P := false = true)) by done.
      destruct (decide (shown_in M b = true)); [|done].
      rewrite filter_cons, decide_False; [done|]. by intros ?.
    + destruct (decide (shown_in M b = true)); [|done].
      by rewrite filter_cons, decide_True.
  - intros M' HM'. induction (buckets s) as [|b l IH]; constructor; [|done].
    destruct (decide (bucket_id b = id)); [|done].
    by rewrite shown_in_after_delete, (decide_False (P := M' = M)).
  - rewrite <-list_fmap_compose. apply list_fmap_ext. intros _ b _. simpl.
    by case_decide.
Qed.

(** ** Transactions: soft delete, restore, purge, reassign *)

Lemma monthTxns_softDelete M id s :
  monthTxns M (softDeleteTxn id s) = filter (λ t, txn_id t ≠ id) (monthTxns M s).
Proof.
  unfold monthTxns, softDeleteTxn. cbn [txns with_txns].
  induction (txns s) as [|t l IH]; [done|]. cbn [map].
  rewrite !filter_cons, IH. destruct (decide (txn_id t = id)) as [Hid|Hid].
  - rewrite decide_False by (simpl; by intros [_ ?]).
    case_decide; [|done]. rewrite filter_cons, decide_False; [done|]. by intros ?.
  - case_decide; [|done]. by rewrite filter_cons, decide_True.
Qed.

Lemma monthTxns_deleteForever M id s :
  monthTxns M (deleteForever id s) = filter (λ t, txn_id t ≠ id) (monthTxns M s).
Proof.
  unfold monthTxns, deleteForever. cbn [txns with_txns].
  induction (txns s) as [|t l IH]; [done|].
  rewrite !filter_cons. destruct (decide (txn_id t ≠ id)) as [Hid|Hid].
  - rewrite !filter_cons, IH. case_decide; [|done].
    by rewrite filter_cons, decide_True.
  - rewrite IH. case_decide; [|done].
    by rewrite filter_cons, decide_False.
Qed.

(** X9 — A soft-deleted transaction counts for nothing.  Soft-deleting the
    transactions with a given id has the same effect on every month's list of
    transactions, on every bucket's remaining amount and on the totals as
    removing them for good: they are exactly the ones taken out. *)
Theorem softDelete_counts_as_purge (M id : string) (s : AppState) (bucket : Bucket) :
  monthTxns M (softDeleteTxn id s) = filter (λ t, txn_id t ≠ id) (monthTxns M s) ∧
  monthTxns M (softDeleteTxn id s) = monthTxns M (deleteForever id s) ∧
  leftFor M (softDeleteTxn id s) bucket = leftFor M (deleteForever id s) bucket ∧
  totals M (softDeleteTxn id s) = totals M (deleteForever id s).
Proof.
  pose proof (monthTxns_softDelete M id s) as Hsoft.
  pose proof (monthTxns_deleteForever M id s) as Hpurge.
  split_and!; [done|congruence| |].
  - unfold leftFor. by rewrite Hsoft, Hpurge.
  - unfold totals. rewrite Hsoft, Hpurge. done.
Qed.

(** [restoreTxn] after [softDeleteTxn], as one pass over the transactions. *)
Lemma restore_after_softDelete id s :
  restoreTxn id (softDeleteTxn id s) = restoreTxn id s.
Proof.
  unfold restoreTxn, softDeleteTxn. cbn [txns with_txns]. unfold with_txns. simpl.
  f_equal. rewrite map_map. apply map_ext. intros t.
  destruct (decide (txn_id t = id)) as [Hid|Hid]; simpl.
  - by rewrite decide_True.
  - by rewrite decide_False.
Qed.

Lemma foldl_filter_fmap {A} (f : Txn → Txn) (P : Txn → Prop)
    `{!∀ t, Decision (P t)} (g : A → Txn → A) (l : list Txn) (a : A) :
  (∀ t, t ∈ l → (P (f t) ↔ P t) ∧ ∀ a, g a (f t) = g a t) →
  foldl g a (filter P (f <$> l)) = foldl g a (filter P l).
Proof.
  revert a. induction l as [|t l IH]; intros a Hl; [done|].
  destruct (Hl t) as [HP Hg]; [left|].
  assert (∀ t', t' ∈ l → (P (f t') ↔ P t') ∧ ∀ a, g a (f t') = g a t') as Hl'.
  { intros t' Ht'. apply Hl. by right. }
  rewrite fmap_cons, !filter_cons. destruct (decide (P t)) as [Ht|Ht].
  - rewrite decide_True by (by apply HP). simpl. rewrite Hg. by apply IH.
  - rewrite decide_False by (by rewrite HP). by apply IH.
Qed.

Lemma monthTxns_restore M id s :
  Forall (λ t, txn_id t = id → truthy_flag (deleted t) = false) (txns s) →
  monthTxns M (restoreTxn id s)
  = (λ t, if decide (txn_id t = id) then with_deleted t false else t) <$> monthTxns M s.
Proof.
  unfold monthTxns, restoreTxn. cbn [txns with_txns].
  induction 1 as [|t l Ht Hl IH]; [done|]. cbn [map].
  rewrite !filter_cons, IH.
  destruct (decide (txn_id t = id)) as [Hid|Hid].
  - simpl. rewrite (Ht Hid).
    destruct (decide (monthKeyFrom (date t) = M ∧ false = false)) as [[? _]|Hn];
      [|done].
    by rewrite fmap_cons, decide_True.
  - destruct (decide (monthKeyFrom (date t) = M ∧ truthy_flag (deleted t) = false));
      [|done].
    by rewrite fmap_cons, decide_False.
Qed.

Lemma deletedTxns_restore M id s :
  Forall (λ t, txn_id t = id → truthy_flag (deleted t) = false) (txns s) →
  deletedTxns M (restoreTxn id s) = deletedTxns M s.
Proof.
  unfold deletedTxns, restoreTxn. cbn [txns with_txns].
  induction 1 as [|t l Ht Hl IH]; [done|]. cbn [map].
  rewrite !filter_cons, IH.
  destruct (decide (txn_id t = id)) as [Hid|Hid]; [|done].
  simpl. rewrite (Ht Hid).
  rewrite !(decide_False (P := false = true ∧ _)); [done|by intros [? _]..].
Qed.

(** X10 — Restoring undoes a soft delete.  For transactions that were not
    deleted, [restoreTxn] after [softDeleteTxn] gives back every month's
    figures: the same transactions in the same order in the month's list,
    the same amount left in every bucket, the same totals, and the same list
    of deleted transactions.  (The ledger itself may differ: the flag is
    now [false] where it was [undefined].) *)
Theorem restore_undoes_soft_delete (M id : string) (s : AppState) (bucket : Bucket) :
  Forall (λ t, txn_id t = id → truthy_flag (deleted t) = false) (txns s) →
  txn_id <$> monthTxns M (restoreTxn id (softDeleteTxn id s)) = txn_id <$> monthTxns M s ∧
  leftFor M (restoreTxn id (softDeleteTxn id s)) bucket = leftFor M s bucket ∧
  totals M (restoreTxn id (softDeleteTxn id s)) = totals M s ∧
  deletedTxns M (restoreTxn id (softDeleteTxn id s)) = deletedTxns M s.
Proof.
  intros Hs. rewrite restore_after_softDelete.
  pose proof (monthTxns_restore M id s Hs) as Hmonth.
  set (f := λ t, if decide (txn_id t = id) then with_deleted t false else t) in *.
  assert (∀ t, txn_id (f t) = txn_id t ∧ amount (f t) = amount t ∧
               bucketId (f t) = bucketId t) as Hf.
  { intros t. unfold f. by destruct (decide (txn_id t = id)). }
  split_and!.
  - rewrite Hmonth, <-list_fmap_compose. apply list_fmap_ext.
    intros _ t _. apply Hf.
  - unfold leftFor, sum_amounts. rewrite Hmonth. f_equal.
    apply foldl_filter_fmap. intros t _. destruct (Hf t) as (_ & Ha & Hb).
    split; [by rewrite Hb|]. intros a. by rewrite Ha.
  - unfold totals, sum_amounts. rewrite Hmonth.
    change (incomeBucket (restoreTxn id s)) with (incomeBucket s).
    change (nonIncomeBuckets M (restoreTxn id s)) with (nonIncomeBuckets M s).
    destruct (incomeBucket s) as [ib|]; [|done].
    rewrite !foldl_filter_fmap; [done|..].
    + intros t _. destruct (Hf t) as (_ & Ha & Hb).
      split; [by rewrite Ha|]. intros a. by rewrite Ha.
    + intros t _. destruct (Hf t) as (_ & Ha & Hb).
      split; [by rewrite Hb|]. intros a. by rewrite Ha.
  - by apply deletedTxns_restore.
Qed.

Lemma restore_undoes_soft_delete_witness :
  txn_id <$> monthTxns "2024-01" (restoreTxn "t1" (softDeleteTxn "t1" ledger1))
    = txn_id <$> monthTxns "2024-01" ledger1 ∧
  leftFor "2024-01" (restoreTxn "t1" (softDeleteTxn "t1" ledger1)) groceries
    = leftFor "2024-01" ledger1 groceries ∧
  totals "2024-01" (restoreTxn "t1" (softDeleteTxn "t1" ledger1))
    = totals "2024-01" ledger1 ∧
  deletedTxns "2024-01" (restoreTxn "t1" (softDeleteTxn "t1" ledger1))
    = deletedTxns "2024-01" ledger1.
Proof.
  apply (restore_undoes_soft_delete "2024-01" "t1" ledger1 groceries).
  repeat constructor.
Defined.

Lemma with_txns_id s : with_txns s (txns s) = s.
Proof. by destruct s. Qed.

Lemma map_no_match (f : Txn → Txn) id (l : list Txn) :
  Forall (λ t, txn_id t ≠ id) l →
  map (λ t, if decide (txn_id t = id) then f t else t) l = l.
Proof.
  induction 1 as [|t l Ht Hl IH]; [done|]. simpl.
  by rewrite decide_False, IH.
Qed.

Lemma filter_no_match id (l : list Txn) :
  Forall (λ t, txn_id t ≠ id) l → filter (λ t, txn_id t ≠ id) l = l.
Proof.
  induction 1 as [|t l Ht Hl IH]; [done|].
  by rewrite filter_cons, decide_True, IH.
Qed.

(** X11 — Deleting for good is final.  After [deleteForever] for an id no
    transaction has that id, the others are all there in their order, and
    nothing that addresses the id does anything any more: restoring, soft
    deleting, reassigning and deleting it again each leave the ledger as it
    is.  The buckets and the version are untouched. *)
Theorem deleteForever_is_final (id : string) (bucketId : option string) (s : AppState) :
  Forall (λ t, txn_id t ≠ id) (txns (deleteForever id s)) ∧
  txns (deleteForever id s) = filter (λ t, txn_id t ≠ id) (txns s) ∧
  restoreTxn id (deleteForever id s) = deleteForever id s ∧
  softDeleteTxn id (deleteForever id s) = deleteForever id s ∧
  reassignTxn id bucketId (deleteForever id s) = deleteForever id s ∧
  deleteForever id (deleteForever id s) = deleteForever id s ∧
  buckets (deleteForever id s) = buckets s ∧
  version (deleteForever id s) = version s.
Proof.
  assert (Forall (λ t, txn_id t ≠ id) (txns (deleteForever id s))) as Hgone.
  { unfold deleteForever. cbn [txns with_txns]. apply Forall_forall.
    intros t Ht. by apply list_elem_of_filter in Ht as [? _]. }
  split_and!; try done.
  - unfold restoreTxn. rewrite map_no_match by done. apply with_txns_id.
  - unfold softDeleteTxn. rewrite map_no_match by done. apply with_txns_id.
  - unfold reassignTxn. rewrite map_no_match by done. apply with_txns_id.
  - unfold deleteForever at 1.
    replace (filter (λ t, txn_id t ≠ id) (txns (deleteForever id s)))
      with (txns (deleteForever id s)); [apply with_txns_id|].
    symmetry. by apply filter_no_match.
Qed.

(** X12 — Every transaction of a month is in exactly one of the three lists
    the month shows: not assigned, assigned, deleted.  Together the three
    lists hold the month's transactions, each as often as the ledger has
    it. *)
Theorem month_lists_partition (M : string) (s : AppState) :
  (unassigned M s ++ assigned M s ++ deletedTxns M s
     ≡ₚ filter (λ t, monthKeyFrom (date t) = M) (txns s)) ∧
  (∀ t, t ∈ unassigned M s → (t ∉ assigned M s) ∧ (t ∉ deletedTxns M s)) ∧
  (∀ t, t ∈ assigned M s → t ∉ deletedTxns M s).
Proof.
  unfold unassigned, assigned, deletedTxns, monthTxns. split_and!.
  - induction (txns s) as [|t l IH]; [done|].
    rewrite !filter_cons.
    destruct (decide (monthKeyFrom (date t) = M)) as [HM|HM].
    + destruct (truthy_flag (deleted t)) eqn:Hdel.
      * rewrite decide_False by (by intros [_ ?]).
        rewrite decide_True by done.
        rewrite <-IH. by rewrite <-!Permutation_middle.
      * rewrite decide_True by done.
        rewrite (decide_False (P := false = true ∧ _)) by (by intros [? _]).
        rewrite !filter_cons.
        destruct (decide (bucketId t = None)) as [Hb|Hb].
        -- rewrite (decide_False (P := bucketId t ≠ None)) by (by intros ?).
           simpl. by rewrite IH.
        -- rewrite (decide_True (P := bucketId t ≠ None)) by done.
           rewrite <-IH. simpl. by rewrite <-Permutation_middle.
    + rewrite decide_False by (by intros [? _]).
      rewrite (decide_False (P := _ ∧ monthKeyFrom (date t) = M)) by (by intros [_ ?]).
      done.
  - intros t Ht. apply list_elem_of_filter in Ht as [Hnone Ht].
    apply list_elem_of_filter in Ht as [[_ Hdel] _].
    split; intros Ht'; apply list_elem_of_filter in Ht' as [Hp _].
    + done.
    + destruct Hp as [Hp _]. congruence.
  - intros t Ht. apply list_elem_of_filter in Ht as [_ Ht].
    apply list_elem_of_filter in Ht as [[_ Hdel] _].
    intros Ht'. apply list_elem_of_filter in Ht' as [[Hp _] _]. congruence.
Qed.

(** X13 — Reassigning moves a transaction between the lists and nothing
    else.  The month's transactions keep their ids, their order and their
    deleted flags.  Giving the id a bucket takes its transactions out of the
    list of the unassigned ones, and taking the bucket away takes them out of
    the assigned ones; afterwards every transaction with the id points where
    it was told to.  Of two reassignments of an id the later one wins. *)
Theorem reassignTxn_moves_between_lists
    (M id bucket : string) (target earlier : option string) (s : AppState) :
  txn_id <$> monthTxns M (reassignTxn id target s) = txn_id <$> monthTxns M s ∧
  txn_id <$> deletedTxns M (reassignTxn id target s) = txn_id <$> deletedTxns M s ∧
  unassigned M (reassignTxn id (Some bucket) s)
    = filter (λ t, txn_id t ≠ id) (unassigned M s) ∧
  assigned M (reassignTxn id None s)
    = filter (λ t, txn_id t ≠ id) (assigned M s) ∧
  Forall (λ t, txn_id t = id → bucketId t = target) (txns (reassignTxn id target s)) ∧
  reassignTxn id target (reassignTxn id earlier s) = reassignTxn id target s ∧
  buckets (reassignTxn id target s) = buckets s.
Proof.
  unfold unassigned, assigned, monthTxns, deletedTxns, reassignTxn.
  cbn [txns with_txns buckets]. split_and!; [| | | | | |done].
  - induction (txns s) as [|t l IH]; [done|]. cbn [map].
    rewrite !filter_cons.
    destruct (decide (txn_id t = id)); simpl;
      (case_decide; [by rewrite !fmap_cons, IH|done]).
  - induction (txns s) as [|t l IH]; [done|]. cbn [map].
    rewrite !filter_cons.
    destruct (decide (txn_id t = id)); simpl;
      (case_decide; [by rewrite !fmap_cons, IH|done]).
  - induction (txns s) as [|t l IH]; [done|]. cbn [map].
    rewrite !filter_cons.
    destruct (decide (txn_id t = id)) as [Hid|Hid]; simpl.
    + destruct (decide (monthKeyFrom (date t) = M ∧ truthy_flag (deleted t) = false)).
      * rewrite !filter_cons. simpl. rewrite IH.
        destruct (decide (bucketId t = None)); [|done].
        rewrite filter_cons, decide_False; [done|]. by intros ?.
      * done.
    + destruct (decide (monthKeyFrom (date t) = M ∧ truthy_flag (deleted t) = false));
        [|done].
      rewrite !filter_cons. destruct (decide (bucketId t = None)); [|done].
      by rewrite filter_cons, decide_True, IH.
  - induction (txns s) as [|t l IH]; [done|]. cbn [map].
    rewrite !filter_cons.
    destruct (decide (txn_id t = id)) as [Hid|Hid]; simpl.
    + destruct (decide (monthKeyFrom (date t) = M ∧ truthy_flag (deleted t) = false)).
      * rewrite !filter_cons. simpl. rewrite IH.
        destruct (decide (bucketId t ≠ None)); [|done].
        rewrite filter_cons, decide_False; [done|]. by intros ?.
      * done.
    + destruct (decide (monthKeyFrom (date t) = M ∧ truthy_flag (deleted t) = false));
        [|done].
      rewrite !filter_cons. destruct (decide (bucketId t ≠ None)); [|done].
      by rewrite filter_cons, decide_True, IH.
  - apply Forall_forall. intros t Ht. apply list_elem_of_fmap in Ht as (t0 & -> & _).
    destruct (decide (txn_id t0 = id)); [done|]. by intros ?.
  - unfold with_txns. simpl. f_equal. rewrite map_map. apply map_ext. intros t.
    destruct (decide (txn_id t = id)) as [Hid|Hid]; simpl.
    + by rewrite decide_True.
    + by rewrite decide_False.
Qed.

(** X14 — Migration sets the version once.  [migrateState] gives a ledger
    whose version is set; a ledger that has one is returned as it is, one
    that has none (or 0, or NaN) gets version 1; the buckets and the
    transactions are never touched, and migrating again changes nothing. *)
Theorem migrateState_sets_version_once (s : AppState) :
  truthy_number (version (migrateState s)) = true ∧
  (truthy_number (version s) = true → migrateState s = s) ∧
  (truthy_number (version s) = false → version (migrateState s) = Some CURRENT_VERSION) ∧
  buckets (migrateState s) = buckets s ∧
  txns (migrateState s) = txns s ∧
  migrateState (migrateState s) = migrateState s.
Proof.
  unfold migrateState.
  destruct (truthy_number (version s)) eqn:Hv; simpl; [by rewrite Hv|].
  split_and!; done.
Qed.

(** ** The income bucket *)

Lemma find_income_map (f : Bucket → Bucket) (l : list Bucket) :
  (∀ b, bucket_id (f b) = bucket_id b ∧ isIncome (f b) = isIncome b) →
  bucket_id <$> find (λ b, truthy_flag (isIncome b)) (map f l)
  = bucket_id <$> find (λ b, truthy_flag (isIncome b)) l.
Proof.
  intros Hf. induction l as [|b l IH]; [done|]. simpl.
  destruct (Hf b) as [Hid Hinc]. rewrite Hinc.
  destruct (truthy_flag (isIncome b)); simpl; [by rewrite Hid|done].
Qed.

Lemma find_income_snoc (l : list Bucket) (b : Bucket) :
  truthy_flag (isIncome b) = false →
  find (λ b, truthy_flag (isIncome b)) (l ++ [b])
  = find (λ b, truthy_flag (isIncome b)) l.
Proof.
  intros Hb. induction l as [|x l IH]; simpl; [by rewrite Hb|].
  by destruct (truthy_flag (isIncome x)).
Qed.

Lemma perform_keeps_income (a : Action) (s : AppState) :
  bucket_id <$> incomeBucket (perform a s) = bucket_id <$> incomeBucket s.
Proof.
  unfold incomeBucket. destruct a; simpl; try done.
  - apply find_income_map. intros b. unfold carryBucket.
    repeat (case_decide || case_match); done.
  - apply find_income_map. intros b. by case_decide.
  - unfold addBucket. case_decide; [done|].
    destruct addToAllFuture; simpl; by rewrite find_income_snoc.
  - apply find_income_map. intros b. by case_decide.
Qed.

(** X15 — The income bucket is never lost.  Whatever the user does (change
    months, set an allocation, add a bucket or hide one, reassign, delete,
    restore or purge a transaction, import rows, edit a description), the
    bucket the ledger takes for its income bucket keeps its id, and no such
    bucket appears where there was none.  From the seed ledger on it is
    always the bucket with id income, so [totals] always finds it. *)
Theorem income_bucket_is_kept (acts : list Action) (s : AppState)
    (activeMonthKey M : string) :
  bucket_id <$> incomeBucket (perform_all acts s) = bucket_id <$> incomeBucket s ∧
  bucket_id <$> incomeBucket (perform_all acts (seedState activeMonthKey))
    = Some "income" ∧
  is_Some (totals M (perform_all acts (seedState activeMonthKey))).
Proof.
  assert (∀ s0, bucket_id <$> incomeBucket (perform_all acts s0)
                = bucket_id <$> incomeBucket s0) as Hkeep.
  { unfold perform_all. induction acts as [|a acts IH]; intros s0; [done|].
    simpl. by rewrite IH, perform_keeps_income. }
  split_and!; [apply Hkeep|by rewrite Hkeep|].
  pose proof (Hkeep (seedState activeMonthKey)) as Hseed.
  unfold totals.
  destruct (incomeBucket (perform_all acts (seedState activeMonthKey))); [eauto|done].
Qed.

(** ** Splitting a line of CSV *)

Lemma splitCSVLine_loops_agree line out cur inQ :
  splitCSVLine_loop line (trim <$> out) cur inQ
  = (let '(o, c) := splitCSVLine_v1_loop line out cur inQ in (trim <$> o, c)).
Proof.
  revert out cur inQ. induction line as [|c rest IH]; intros out cur inQ; [done|].
  simpl. destruct (Ascii.eqb c double_quote); [apply IH|].
  destruct (Ascii.eqb c "," && negb inQ); [|apply IH].
  rewrite <-IH. by rewrite fmap_app.
Qed.

(** X16 — The two revisions of [splitCSVLine] return the same cells for every
    line: trimming each cell as it is pushed (current revision) and trimming
    them all at the end (first revision) make no difference. *)
Theorem splitCSVLine_revisions_agree (line : string) :
  splitCSVLine line = splitCSVLine_v1 line.
Proof.
  unfold splitCSVLine, splitCSVLine_v1.
  pose proof (splitCSVLine_loops_agree line [] "" false) as Hloop.
  simpl in Hloop. rewrite Hloop.
  destruct (splitCSVLine_v1_loop line [] "" false) as [o c].
  by rewrite fmap_app.
Qed.

Lemma string_app_cons x (a b : string) : String x a +:+ b = String x (a +:+ b).
Proof. reflexivity. Qed.

Lemma string_app_assoc (a b c : string) : (a +:+ b) +:+ c = a +:+ (b +:+ c).
Proof. induction a as [|x a IH]; [done|]. by rewrite !string_app_cons, IH. Qed.

Lemma string_app_nil_r (a : string) : a +:+ "" = a.
Proof. induction a as [|x a IH]; [done|]. by rewrite string_app_cons, IH. Qed.

(** Reading a stretch that has neither comma nor quote, outside quotes. *)
Lemma splitCSVLine_loop_plain cell rest out acc :
  has_char "," cell = false → has_char double_quote cell = false →
  splitCSVLine_loop (cell +:+ rest) out acc false
  = splitCSVLine_loop rest out (acc +:+ cell) false.
Proof.
  revert acc. induction cell as [|c cell IH]; intros acc Hcomma Hquote; simpl.
  - by rewrite string_app_nil_r.
  - simpl in Hcomma, Hquote.
    apply orb_false_iff in Hcomma as [Hc1 Hc2].
    apply orb_false_iff in Hquote as [Hq1 Hq2].
    rewrite Hq1, Hc1. simpl. rewrite IH by done.
    by rewrite string_app_assoc.
Qed.

(** Reading an escaped cell inside quotes: the doubled quotes close and open
    again, everything else is taken, commas too. *)
Lemma splitCSVLine_loop_escaped cell rest out acc :
  splitCSVLine_loop (escape_quotes cell +:+ rest) out acc true
  = splitCSVLine_loop rest out (acc +:+ drop_quotes cell) true.
Proof.
  revert acc. induction cell as [|c cell IH]; intros acc; simpl.
  - by rewrite string_app_nil_r.
  - destruct (Ascii.eqb c double_quote) eqn:Hq; simpl.
    + apply IH.
    + rewrite Hq. rewrite andb_false_r. rewrite IH.
      by rewrite string_app_assoc.
Qed.

Lemma splitCSVLine_loop_comma rest out acc :
  splitCSVLine_loop (String "," rest) out acc false
  = splitCSVLine_loop rest (out ++ [trim acc]) "" false.
Proof. reflexivity. Qed.

Lemma splitCSVLine_loop_quote rest out acc inQuote :
  splitCSVLine_loop (String double_quote rest) out acc inQuote
  = splitCSVLine_loop rest out acc (negb inQuote).
Proof. reflexivity. Qed.

Lemma concat_cons_cons sep (a b : string) l :
  String.concat sep (a :: b :: l) = a +:+ (sep +:+ String.concat sep (b :: l)).
Proof. reflexivity. Qed.

Lemma split_plain_cells cells cell out :
  Forall (λ c, has_char "," c = false ∧ has_char double_quote c = false) (cell :: cells) →
  (let '(o, c) := splitCSVLine_loop (String.concat "," (cell :: cells)) out "" false in
   o ++ [trim c])
  = out ++ (trim <$> cell :: cells).
Proof.
  revert cell out. induction cells as [|next cells IH]; intros cell out Hcells.
  - apply Forall_inv in Hcells as [Hc Hq].
    change (String.concat "," [cell]) with cell.
    rewrite <-(string_app_nil_r cell) at 1.
    by rewrite splitCSVLine_loop_plain.
  - pose proof (Forall_inv Hcells) as [Hc Hq]. apply Forall_inv_tail in Hcells.
    rewrite concat_cons_cons, splitCSVLine_loop_plain by done.
    change ("," +:+ String.concat "," (next :: cells))
      with (String "," (String.concat "," (next :: cells))).
    rewrite splitCSVLine_loop_comma, IH by done.
    by rewrite <-app_assoc.
Qed.

(** X17 — Joining and splitting.  Cells that hold neither a comma nor a double
    quote and have no white space at either end, joined with commas, are
    split back into the same cells; with white space around them it is the
    trimmed cells that come back. *)
Theorem splitCSVLine_of_joined_cells (cells : list string) :
  cells ≠ [] →
  Forall (λ c, has_char "," c = false ∧ has_char double_quote c = false) cells →
  splitCSVLine (String.concat "," cells) = trim <$> cells ∧
  (Forall (λ c, trim c = c) cells → splitCSVLine (String.concat "," cells) = cells).
Proof.
  intros Hne Hcells. destruct cells as [|cell cells]; [done|].
  assert (splitCSVLine (String.concat "," (cell :: cells)) = trim <$> cell :: cells)
    as Hsplit.
  { unfold splitCSVLine. by rewrite (split_plain_cells cells cell []). }
  split; [done|]. intros Htrim. rewrite Hsplit.
  clear Hsplit Hcells Hne. induction Htrim as [|c l Hc Hl IH]; [done|].
  by rewrite fmap_cons, Hc, IH.
Qed.

Lemma splitCSVLine_of_joined_cells_witness :
  splitCSVLine (String.concat "," ["2024-01-05"; "Market"; "-25.00"])
    = trim <$> ["2024-01-05"; "Market"; "-25.00"] ∧
  splitCSVLine (String.concat "," ["2024-01-05"; "Market"; "-25.00"])
    = ["2024-01-05"; "Market"; "-25.00"].
Proof.
  destruct (splitCSVLine_of_joined_cells ["2024-01-05"; "Market"; "-25.00"])
    as [Hsplit Hsame].
  - discriminate.
  - repeat constructor.
  - split; [exact Hsplit|]. apply Hsame. repeat constructor.
Defined.

Lemma split_quoted_cell cell rest out :
  splitCSVLine_loop (quoted (escape_quotes cell) +:+ rest) out "" false
  = splitCSVLine_loop rest out (drop_quotes cell) false.
Proof.
  unfold quoted. rewrite string_app_cons, splitCSVLine_loop_quote, string_app_assoc.
  simpl negb. rewrite splitCSVLine_loop_escaped, string_app_cons.
  by rewrite splitCSVLine_loop_quote.
Qed.

Lemma split_quoted_cells cells cell out :
  (let '(o, c) :=
     splitCSVLine_loop
       (String.concat ","
          (quoted (escape_quotes cell) :: ((λ c, quoted (escape_quotes c)) <$> cells)))
       out "" false in
   o ++ [trim c])
  = out ++ trim (drop_quotes cell) :: ((λ c, trim (drop_quotes c)) <$> cells).
Proof.
  revert cell out. induction cells as [|next cells IH]; intros cell out.
  - rewrite !fmap_nil.
    change (String.concat "," [quoted (escape_quotes cell)])
      with (quoted (escape_quotes cell)).
    pose proof (split_quoted_cell cell "" out) as Hcell.
    rewrite string_app_nil_r in Hcell. by rewrite Hcell.
  - rewrite !fmap_cons, concat_cons_cons, split_quoted_cell.
    rewrite (string_app_cons "," "" _).
    (* the comma closes the cell read so far *)
    change (splitCSVLine_loop (String "," ?r) out ?acc false)
      with (splitCSVLine_loop r (out ++ [trim acc]) "" false).
    change ("" +:+ ?r) with r.
    rewrite IH. by rewrite <-app_assoc.
Qed.

Lemma no_quote_unchanged c :
  has_char double_quote c = false → escape_quotes c = c ∧ drop_quotes c = c.
Proof.
  induction c as [|x c IH]; [done|]. simpl. intros Hc.
  apply orb_false_iff in Hc as [Hx Hc]. rewrite Hx.
  by destruct (IH Hc) as [-> ->].
Qed.

Lemma drop_quotes_has_none c : has_char double_quote (drop_quotes c) = false.
Proof.
  induction c as [|x c IH]; [done|]. simpl.
  destruct (Ascii.eqb x double_quote) eqn:Hx; [done|]. simpl. by rewrite Hx.
Qed.

(** X18 — The rows of [exportCSV].  A row whose month, bucket name,
    allocation, date and amount hold no double quote is split by
    [splitCSVLine] into exactly its six cells, whatever commas they hold:
    those five trimmed, and the description trimmed and without its double
    quotes (as it was written, up to the white space at its ends, when it
    has none). *)
Theorem splitCSVLine_of_export_row
    (month name allocationStr date description amount : string) :
  has_char double_quote month = false →
  has_char double_quote name = false →
  has_char double_quote allocationStr = false →
  has_char double_quote date = false →
  has_char double_quote amount = false →
  splitCSVLine (export_row month name allocationStr date description amount)
    = [trim month; trim name; trim allocationStr; trim date;
       trim (drop_quotes description); trim amount] ∧
  has_char double_quote (drop_quotes description) = false ∧
  (has_char double_quote description = false → drop_quotes description = description).
Proof.
  intros Hmonth Hname Halloc Hdate Hamount. split_and!.
  - pose proof (split_quoted_cells [name; allocationStr; date; description; amount]
                  month []) as Hsplit.
    cbn [fmap list_fmap] in Hsplit.
    destruct (no_quote_unchanged _ Hmonth) as [Hm1 Hm2].
    destruct (no_quote_unchanged _ Hname) as [Hn1 Hn2].
    destruct (no_quote_unchanged _ Halloc) as [Ha1 Ha2].
    destruct (no_quote_unchanged _ Hdate) as [Hd1 Hd2].
    destruct (no_quote_unchanged _ Hamount) as [Hx1 Hx2].
    rewrite Hm1, Hn1, Ha1, Hd1, Hx1, Hm2, Hn2, Ha2, Hd2, Hx2 in Hsplit.
    exact Hsplit.
  - apply drop_quotes_has_none.
  - intros Hd. by apply no_quote_unchanged.
Qed.

Lemma splitCSVLine_of_export_row_witness :
  splitCSVLine
    (export_row "2024-01" "Rent, utilities" "1500" "2024-01-05"
       ("Joe" +:+ String double_quote "s, Inc") "-25")
    = [trim "2024-01"; trim "Rent, utilities"; trim "1500"; trim "2024-01-05";
       trim (drop_quotes ("Joe" +:+ String double_quote "s, Inc")); trim "-25"] ∧
  has_char double_quote (drop_quotes ("Joe" +:+ String double_quote "s, Inc")) = false ∧
  (has_char double_quote ("Joe" +:+ String double_quote "s, Inc") = false →
   drop_quotes ("Joe" +:+ String double_quote "s, Inc")
     = "Joe" +:+ String double_quote "s, Inc").
Proof.
  apply (splitCSVLine_of_export_row "2024-01" "Rent, utilities" "1500" "2024-01-05"
           ("Joe" +:+ String double_quote "s, Inc") "-25"); reflexivity.
Defined.

(** A bucket name is written as it is: one that holds a double quote breaks
    the row.  The row of a bucket whose name is 6, a double quote, and pipe
    is split into two cells, not six. *)
Example export_row_with_quote_in_name :
  splitCSVLine (export_row "2024-01" ("6" +:+ String double_quote " pipe") "50" "" "" "")
    = ["2024-01"; "6 pipe,50,,,"].
Proof. vm_compute. reflexivity. Qed.

(** * Further properties of the persistence layer *)

Section orchestration.
Context `{Platform}.

(** The world after the client was asked for the row of a household. *)
Lemma loadFromCloud_runs householdId passphrase w sb :
  (getSupabase w).1 = Return (Some sb) →
  ∃ w1, localStorage w1 = localStorage w ∧ backend w1 = backend w ∧
        SUPABASE_URL w1 = SUPABASE_URL w ∧
        SUPABASE_ANON_KEY w1 = SUPABASE_ANON_KEY w ∧
        loadFromCloud householdId passphrase w =
        match read_error (backend w), states (backend w) !! householdId with
        | None, Some payload => decryptJSON passphrase (JSON_stringify payload) w1
        | _, _ => (Return JNull, w1)
        end.
Proof.
  intros Hsb. unfold loadFromCloud.
  unfold mbind at 1, M_bind at 1, bind at 1.
  destruct (getSupabase_runs w w eq_refl eq_refl) as [_ Hw].
  destruct (getSupabase w) as [r w0]. simpl in Hsb, Hw. subst r w0.
  unfold select_payload. unfold_monad. simpl.
  eexists {| localStorage := localStorage w; SUPABASE_URL := SUPABASE_URL w;
             SUPABASE_ANON_KEY := SUPABASE_ANON_KEY w; backend := backend w;
             entropy := entropy w; drawn := drawn w;
             log := EvSelect householdId :: log w |}.
  split_and!; try done.
  destruct (read_error (backend w)); simpl; [done|].
  destruct (states (backend w) !! householdId) as [payload|]; simpl; [|done].
  by destruct (decryptJSON _ _ _) as [[?|?] ?].
Qed.

Lemma loadLocal_keeps_backend w : backend (loadLocal w).2 = backend w.
Proof.
  unfold loadLocal, hasLocalStorage, localStorage_getItem.
  unfold_monad. destruct w as [[st|] url key be ent dr lg]; simpl; [|done].
  destruct (items st !! LOCAL_STORAGE_KEY) as [raw|]; simpl; [|done].
  case_bool_decide; simpl; [|done].
  by destruct (JSON_parse raw).
Qed.

(** X19 — Without both credentials, or without a cloud client, the
    persistence is local only: [loadState] is [loadLocal] and [saveState] is
    [saveLocal], result and effects alike, and the backend is as it was. *)
Theorem local_only_without_cloud
    (state : json) (householdId passphrase : option string) (w : World) :
  truthy_string householdId && truthy_string passphrase = false ∨
    (cloudAvailable w).1 = Return false →
  loadState householdId passphrase w = loadLocal w ∧
  saveState state householdId passphrase w = saveLocal state w ∧
  backend (loadState householdId passphrase w).2 = backend w ∧
  backend (saveState state householdId passphrase w).2 = backend w.
Proof.
  intros Hoff.
  assert (loadState householdId passphrase w = loadLocal w) as Hload.
  { unfold loadState. destruct Hoff as [->|Hcloud]; [done|].
    destruct (truthy_string householdId && truthy_string passphrase); [|done].
    unfold mbind at 1, M_bind at 1, bind at 1.
    rewrite cloudAvailable_runs in Hcloud |- *. simpl in Hcloud.
    by destruct (getSupabase w).1 as [[sb|]|]. }
  assert (saveState state householdId passphrase w = saveLocal state w) as Hsave.
  { unfold saveState. unfold mbind at 1, M_bind at 1, bind at 1.
    destruct (saveLocal_runs state w) as (Hr & _ & Hurl & Hkey & _).
    destruct (saveLocal state w) as [r w1]. simpl in *. subst r.
    destruct Hoff as [->|Hcloud]; [done|].
    destruct (truthy_string householdId && truthy_string passphrase); [|done].
    unfold mbind at 1, M_bind at 1, bind at 1.
    rewrite cloudAvailable_runs in Hcloud |- *. simpl in Hcloud.
    destruct (getSupabase_runs w w1 Hurl Hkey) as [-> _].
    by destruct (getSupabase w).1 as [[sb|]|]. }
  rewrite Hload, Hsave. split_and!; try done.
  - apply loadLocal_keeps_backend.
  - apply saveLocal_runs.
Qed.

(** X20 — No row, no harm.  With both credentials and the cloud available,
    when the backend answers the read with an error or has no row for the
    household, [loadState] returns what the local slot holds (or [null]) and
    leaves the slot and the backend as they are. *)
Theorem loadState_falls_back_to_local
    (householdId passphrase : option string) (w : World) :
  truthy_string householdId = true →
  truthy_string passphrase = true →
  (cloudAvailable w).1 = Return true →
  is_Some (read_error (backend w)) ∨
    states (backend w) !! default "" householdId = None →
  (loadState householdId passphrase w).1 = Return (local_snapshot (localStorage w)) ∧
  localStorage (loadState householdId passphrase w).2 = localStorage w ∧
  backend (loadState householdId passphrase w).2 = backend w.
Proof.
  intros Hhh Hpp Hcloud Hrow.
  apply cloudAvailable_client in Hcloud as [sb Hsb].
  destruct (loadFromCloud_runs (default "" householdId) (default "" passphrase) w sb Hsb)
    as (w1 & Hls & Hbe & _ & _ & Hcloud).
  assert (loadState householdId passphrase w = loadLocal w1) as ->.
  { unfold loadState. rewrite Hhh, Hpp. simpl.
    unfold mbind at 1, M_bind at 1, bind at 1. rewrite cloudAvailable_runs, Hsb.
    simpl. unfold mbind at 1, M_bind at 1, bind at 1. rewrite Hcloud.
    destruct Hrow as [[msg ->]| ->]; [done|]. by destruct (read_error (backend w)). }
  destruct (loadLocal_returns w1) as [-> ->].
  by rewrite loadLocal_keeps_backend, Hls, Hbe.
Qed.

(** X21 — The remote copy wins and is mirrored.  With both credentials and
    the cloud available, when the household's row decrypts to a document,
    [loadState] returns that document and writes it to the local slot (when
    the slot takes it), whatever the slot held; unless the document is falsy
    ([null], [false], 0, the empty string): then the local copy is returned
    and kept. *)
Theorem loadState_remote_wins
    (householdId passphrase : option string) (w : World) (payload remote : json) :
  truthy_string householdId = true →
  truthy_string passphrase = true →
  (cloudAvailable w).1 = Return true →
  read_error (backend w) = None →
  states (backend w) !! default "" householdId = Some payload →
  (decryptJSON (default "" passphrase) (JSON_stringify payload) w).1 = Return remote →
  (truthy remote = true →
     (loadState householdId passphrase w).1 = Return remote ∧
     localStorage (loadState householdId passphrase w).2
       = local_after_save remote (localStorage w)) ∧
  (truthy remote = false →
     (loadState householdId passphrase w).1 = Return (local_snapshot (localStorage w)) ∧
     localStorage (loadState householdId passphrase w).2 = localStorage w).
Proof.
  intros Hhh Hpp Hcloud Hread Hrow Hdec.
  apply cloudAvailable_client in Hcloud as [sb Hsb].
  destruct (loadFromCloud_runs (default "" householdId) (default "" passphrase) w sb Hsb)
    as (w1 & Hls & _ & _ & _ & Hcloud).
  rewrite Hread, Hrow in Hcloud.
  destruct (decryptJSON_runs (default "" passphrase) (JSON_stringify payload) w1 w)
    as [Hres Hls2].
  rewrite Hdec in Hres.
  destruct (decryptJSON _ _ w1) as [r w2]. simpl in Hres, Hls2. subst r.
  assert (loadState householdId passphrase w =
          if truthy remote then (saveLocal remote ≫= λ _, mret remote) w2
          else loadLocal w2) as ->.
  { unfold loadState. rewrite Hhh, Hpp. simpl.
    unfold mbind at 1, M_bind at 1, bind at 1. rewrite cloudAvailable_runs, Hsb.
    simpl. unfold mbind at 1, M_bind at 1, bind at 1. rewrite Hcloud.
    by destruct (truthy remote). }
  split; intros ->.
  - destruct (saveLocal_runs remote w2) as (Hr & Hls3 & _).
    unfold mbind, M_bind, bind, mret, M_ret, ret.
    destruct (saveLocal remote w2) as [r w3]. simpl in *. subst r.
    simpl. by rewrite Hls3, Hls2, Hls.
  - destruct (loadLocal_returns w2) as [-> ->]. by rewrite Hls2, Hls.
Qed.

(** X22 — No key is derived for a payload that does not decode.  When one of
    the fields [salt], [iv] and [cipher] of the parsed payload is not
    base64, [decryptJSON] throws, whatever the version and the other fields
    are, and leaves the world as it found it: nothing has been imported,
    derived or decrypted. *)
Theorem decryptJSON_rejects_bad_base64
    (passphrase payload k : string) (parsed : json) (e : exn) (w : World) :
  JSON_parse payload = Return parsed →
  k ∈ ["salt"; "iv"; "cipher"] →
  atob (get_field k parsed) = Throw e →
  ∃ e', decryptJSON passphrase payload w = (Throw e', w).
Proof.
  intros Hparse Hk Hatob. unfold decryptJSON, b64DecodeToBytes. unfold_monad.
  rewrite Hparse. destruct (negb (truthy parsed) || _); [eauto|].
  destruct (atob (get_field "salt" parsed)) eqn:Hsalt; [|eauto].
  destruct (atob (get_field "iv" parsed)) eqn:Hiv; [|eauto].
  destruct (atob (get_field "cipher" parsed)) eqn:Hcipher; [|eauto].
  repeat (apply elem_of_cons in Hk as [->|Hk]; [congruence|]).
  by apply elem_of_nil in Hk.
Qed.

(** X23 — A slot that cannot be read is read as empty.  Whatever the local
    slot holds, [loadLocal] returns and changes neither the slot nor the
    backend; when the slot holds text that [JSON.parse] throws on, when it
    holds the empty string and when it holds nothing, [loadLocal] returns
    [null]. *)
Theorem loadLocal_absorbs_corrupt_slot (w : World) (st : Storage) :
  localStorage w = Some st →
  (items st !! LOCAL_STORAGE_KEY = None ∨
   items st !! LOCAL_STORAGE_KEY = Some "" ∨
   ∃ raw e, items st !! LOCAL_STORAGE_KEY = Some raw ∧ JSON_parse raw = Throw e) →
  (loadLocal w).1 = Return JNull ∧
  localStorage (loadLocal w).2 = localStorage w ∧
  backend (loadLocal w).2 = backend w.
Proof.
  intros Hst Hslot. destruct (loadLocal_returns w) as [-> ->].
  rewrite loadLocal_keeps_backend. split_and!; try done.
  rewrite Hst. unfold local_snapshot.
  destruct Hslot as [->|[->|(raw & e & -> & Hraw)]]; try done.
  case_bool_decide; [|done]. by rewrite Hraw.
Qed.

Hypothesis JSON_roundtrip_envelope : ∀ s i c,
  JSON_parse (JSON_stringify (envelope s i c)) = Return (envelope s i c).

Lemma saveToCloud_uploads householdId passphrase state w sb :
  (getSupabase w).1 = Return (Some sb) →
  write_error (backend w) = None →
  ∃ w', saveToCloud householdId passphrase state w = (Return tt, w') ∧
        localStorage w' = localStorage w ∧
        backend w' =
          mkBackend
            (<[householdId :=
                 sealed_envelope passphrase state
                   (entropy w <$> seq (drawn w) 16)
                   (entropy w <$> seq (drawn w + 16) 12)]> (states (backend w)))
            (read_error (backend w)) (write_error (backend w)).
Proof using JSON_roundtrip_envelope.
  intros Hsb Hwrite. unfold saveToCloud.
  unfold mbind at 1, M_bind at 1, bind at 1.
  destruct (getSupabase_runs w w eq_refl eq_refl) as [_ Hw].
  destruct (getSupabase w) as [r w0]. simpl in Hsb, Hw. subst r w0.
  unfold mbind at 1, M_bind at 1, bind at 1.
  pose proof (encryptJSON_returns passphrase state w) as Henc.
  destruct (encryptJSON_frame passphrase state w) as (Hls & _ & _ & Hbe).
  destruct (encryptJSON passphrase state w) as [r w1]. simpl in Henc, Hls, Hbe.
  subst r. unfold sealed.
  unfold mbind at 1, M_bind at 1, bind at 1, lift at 1.
  rewrite JSON_roundtrip_envelope.
  unfold upsert_payload. unfold_monad. simpl.
  rewrite Hbe, Hwrite. eexists. split; [done|]. simpl. by rewrite Hls.
Qed.

(** A save with the cloud on and a backend that takes the write. *)
Lemma saveState_uploads state householdId passphrase w :
  truthy_string householdId = true →
  truthy_string passphrase = true →
  (cloudAvailable w).1 = Return true →
  write_error (backend w) = None →
  ∃ salt iv w',
    saveState state householdId passphrase w = (Return tt, w') ∧
    length salt = 16 ∧ length iv = 12 ∧
    backend w' =
      mkBackend
        (<[default "" householdId :=
             sealed_envelope (default "" passphrase) state salt iv]> (states (backend w)))
        (read_error (backend w)) (write_error (backend w)) ∧
    localStorage w' = local_after_save state (localStorage w).
Proof using JSON_roundtrip_envelope.
  intros Hhh Hpp Hcloud Hwrite.
  destruct (saveLocal_runs state w) as (Hr & Hls & Hurl & Hkey & Hbe).
  apply cloudAvailable_client in Hcloud as [sb Hsb].
  destruct (getSupabase_runs w (saveLocal state w).2 Hurl Hkey) as [Hsb1 _].
  rewrite Hsb in Hsb1.
  unfold saveState. unfold mbind at 1, M_bind at 1, bind at 1.
  destruct (saveLocal state w) as [r w1]. simpl in *. subst r.
  rewrite Hhh, Hpp. simpl.
  unfold mbind at 1, M_bind at 1, bind at 1.
  rewrite cloudAvailable_runs, Hsb1. simpl.
  destruct (saveToCloud_uploads (default "" householdId) (default "" passphrase)
              state w1 sb Hsb1) as (w' & -> & Hls' & Hbe').
  { by rewrite Hbe. }
  eexists _, _, w'. split; [done|].
  rewrite Hbe', Hls', Hls, Hbe.
  split_and!; try done; by rewrite length_fmap, length_seq.
Qed.

(** X24 — What a save uploads.  With both credentials, the cloud available
    and a backend that takes the write, [saveState] returns, the local slot
    holds what [saveLocal] wrote, and the backend has changed in one row
    only: the row of the household now holds the envelope
    [{ v: 1, salt, iv, cipher }] made from 16 and 12 drawn bytes; every other
    row is as it was. *)
Theorem saveState_uploads_sealed_envelope
    (state : json) (householdId passphrase : option string) (w : World) :
  truthy_string householdId = true →
  truthy_string passphrase = true →
  (cloudAvailable w).1 = Return true →
  write_error (backend w) = None →
  ∃ salt iv w',
    saveState state householdId passphrase w = (Return tt, w') ∧
    length salt = 16 ∧ length iv = 12 ∧
    states (backend w') !! default "" householdId
      = Some (sealed_envelope (default "" passphrase) state salt iv) ∧
    (∀ other, other ≠ default "" householdId →
       states (backend w') !! other = states (backend w) !! other) ∧
    read_error (backend w') = read_error (backend w) ∧
    write_error (backend w') = write_error (backend w) ∧
    localStorage w' = local_after_save state (localStorage w).
Proof using JSON_roundtrip_envelope.
  intros Hhh Hpp Hcloud Hwrite.
  destruct (saveState_uploads state householdId passphrase w Hhh Hpp Hcloud Hwrite)
    as (salt & iv & w' & Hrun & Hsalt & Hiv & Hbe & Hls).
  exists salt, iv, w'. rewrite Hbe. simpl. split_and!; try done.
  - by rewrite lookup_insert_eq.
  - intros other Hother. by rewrite lookup_insert_ne.
Qed.

Hypothesis atob_btoa : ∀ bin, atob (Some (JString (btoa bin))) = Return bin.
Hypothesis TextDecoder_TextEncoder : ∀ j,
  TextDecoder_decode (TextEncoder_encode (JSON_stringify j)) = JSON_stringify j.
Hypothesis decrypt_encrypt : ∀ iv key plaintext,
  subtle_decrypt (mkAesGcmParams "AES-GCM" iv) key
    (subtle_encrypt (mkAesGcmParams "AES-GCM" iv) key plaintext)
  = Return plaintext.


End orchestration.

(** ** On the small platform *)

Lemma local_only_without_cloud_witness :
  @loadState Toy.platform None None Toy.world_synced
    = @loadLocal Toy.platform Toy.world_synced ∧
  @saveState Toy.platform Toy.doc None None Toy.world_synced
    = @saveLocal Toy.platform Toy.doc Toy.world_synced ∧
  backend (@loadState Toy.platform None None Toy.world_synced).2
    = backend Toy.world_synced ∧
  backend (@saveState Toy.platform Toy.doc None None Toy.world_synced).2
    = backend Toy.world_synced.
Proof.
  apply (@local_only_without_cloud Toy.platform Toy.doc None None Toy.world_synced).
  left. reflexivity.
Defined.

(** A browser that has the ledger in its local slot and reaches a backend
    with no row for the household. *)
Lemma loadState_falls_back_to_local_witness :
  (@loadState Toy.platform (Some "household") (Some "correct")
     (Toy.with_backend (mkBackend ∅ None None) Toy.world_synced)).1
    = Return (@local_snapshot Toy.platform
                (localStorage (Toy.with_backend (mkBackend ∅ None None) Toy.world_synced))) ∧
  localStorage
    (@loadState Toy.platform (Some "household") (Some "correct")
       (Toy.with_backend (mkBackend ∅ None None) Toy.world_synced)).2
    = localStorage (Toy.with_backend (mkBackend ∅ None None) Toy.world_synced) ∧
  backend
    (@loadState Toy.platform (Some "household") (Some "correct")
       (Toy.with_backend (mkBackend ∅ None None) Toy.world_synced)).2
    = backend (Toy.with_backend (mkBackend ∅ None None) Toy.world_synced).
Proof.
  apply (@loadState_falls_back_to_local Toy.platform (Some "household") (Some "correct")
           (Toy.with_backend (mkBackend ∅ None None) Toy.world_synced));
    [reflexivity | reflexivity | vm_compute; reflexivity | right; vm_compute; reflexivity].
Defined.

(** A fresh browser (empty local slot) that reaches the backend the ledger
    was saved to. *)
Lemma loadState_remote_wins_witness :
  (@loadState Toy.platform (Some "household") (Some "correct")
     (Toy.with_localStorage (Some (mkStorage ∅ false)) Toy.world_synced)).1
    = Return Toy.doc ∧
  localStorage
    (@loadState Toy.platform (Some "household") (Some "correct")
       (Toy.with_localStorage (Some (mkStorage ∅ false)) Toy.world_synced)).2
    = @local_after_save Toy.platform Toy.doc (Some (mkStorage ∅ false)).
Proof.
  edestruct (@loadState_remote_wins Toy.platform (Some "household") (Some "correct")
               (Toy.with_localStorage (Some (mkStorage ∅ false)) Toy.world_synced))
    as [Hwins _].
  - reflexivity.
  - reflexivity.
  - vm_compute; reflexivity.
  - vm_compute; reflexivity.
  - vm_compute; reflexivity.
  - vm_compute; reflexivity.
  - apply Hwins. reflexivity.
Defined.

Lemma decryptJSON_rejects_bad_base64_witness :
  ∃ e', @decryptJSON Toy.platform "correct"
          (Toy.ser (JObject [("v", JNumber 1); ("salt", JString "c2FsdA");
                             ("iv", JNumber 2); ("cipher", JString "")]))
          Toy.world0
        = (Throw e', Toy.world0).
Proof.
  apply (@decryptJSON_rejects_bad_base64 Toy.platform "correct"
           (Toy.ser (JObject [("v", JNumber 1); ("salt", JString "c2FsdA");
                              ("iv", JNumber 2); ("cipher", JString "")]))
           "iv"
           (JObject [("v", JNumber 1); ("salt", JString "c2FsdA");
                     ("iv", JNumber 2); ("cipher", JString "")])
           InvalidCharacterError Toy.world0).
  - vm_compute; reflexivity.
  - apply elem_of_cons. right. apply elem_of_cons. by left.
  - reflexivity.
Defined.

Lemma loadLocal_absorbs_corrupt_slot_witness :
  (@loadLocal Toy.platform
     (Toy.with_localStorage
        (Some (mkStorage {[ LOCAL_STORAGE_KEY := "garbage" ]} false)) Toy.world0)).1
    = Return JNull ∧
  localStorage
    (@loadLocal Toy.platform
       (Toy.with_localStorage
          (Some (mkStorage {[ LOCAL_STORAGE_KEY := "garbage" ]} false)) Toy.world0)).2
    = Some (mkStorage {[ LOCAL_STORAGE_KEY := "garbage" ]} false) ∧
  backend
    (@loadLocal Toy.platform
       (Toy.with_localStorage
          (Some (mkStorage {[ LOCAL_STORAGE_KEY := "garbage" ]} false)) Toy.world0)).2
    = backend Toy.world0.
Proof.
  apply (@loadLocal_absorbs_corrupt_slot Toy.platform
           (Toy.with_localStorage
              (Some (mkStorage {[ LOCAL_STORAGE_KEY := "garbage" ]} false)) Toy.world0)
           (mkStorage {[ LOCAL_STORAGE_KEY := "garbage" ]} false)).
  - reflexivity.
  - right. right. exists "garbage", SyntaxError. split; vm_compute; reflexivity.
Defined.

Lemma saveState_uploads_sealed_envelope_witness :
  ∃ salt iv w',
    @saveState Toy.platform Toy.doc (Some "household") (Some "correct") Toy.world0
      = (Return tt, w') ∧
    length salt = 16 ∧ length iv = 12 ∧
    states (backend w') !! "household"
      = Some (@sealed_envelope Toy.platform "correct" Toy.doc salt iv) ∧
    (∀ other, other ≠ "household" →
       states (backend w') !! other = states (backend Toy.world0) !! other) ∧
    read_error (backend w') = read_error (backend Toy.world0) ∧
    write_error (backend w') = write_error (backend Toy.world0) ∧
    localStorage w' = @local_after_save Toy.platform Toy.doc (localStorage Toy.world0).
Proof.
  apply (@saveState_uploads_sealed_envelope Toy.platform toy_JSON_roundtrip_envelope
           Toy.doc (Some "household") (Some "correct") Toy.world0);
    vm_compute; reflexivity.
Defined.

